(** * convert-drm-to-text: drum-map ordering, shallow embedding

    The embedding follows [src/convert-drm-to-text.ts].

    Strings are Rocq [string]s, read as sequences of code units in the
    range U+0000..U+00FF (ASCII and Latin-1); on that range
    [String.prototype.toLowerCase] acts unit by unit and keeps the length.
    The two regular expressions of the program (an open bracket, any run
    of units of one line taken greedily, a close bracket; and a run of
    digits) are embedded as the backtracking matchers they denote.  The
    parsed XML document is a tree of elements with attribute lists; text
    nodes play no role in the program and are left out.  A failed
    [assert.equal] is an outcome of its own beside the returned text. *)

From Stdlib Require Import String Ascii List ZArith NArith Bool Lia Permutation Sorted.
Import ListNotations.
Local Open Scope string_scope.
Local Open Scope list_scope.
Local Open Scope Z_scope.
Set Warnings "-register-all".

(** ** Built-ins of the language the program calls *)

Module JS.

Definition code (c : ascii) : N := N_of_ascii c.

Definition between (lo hi : N) (c : ascii) : bool :=
  ((lo <=? code c) && (code c <=? hi))%N.

(** [\d] *)
Definition isDigit (c : ascii) : bool := between 48 57 c.

(** Line terminators, which [.] refuses: LF and CR (U+2028 and U+2029 lie
    outside the modelled range). *)
Definition isLineTerminator (c : ascii) : bool :=
  ((code c =? 10) || (code c =? 13))%N.

(** Upper-case letters of the range: A-Z, and U+00C0..U+00DE without the
    multiplication sign U+00D7. *)
Definition isUpper (c : ascii) : bool :=
  between 65 90 c || (between 192 222 c && negb (code c =? 215)%N).

Definition lowerChar (c : ascii) : ascii :=
  if isUpper c then ascii_of_N (code c + 32) else c.

(** [s.toLowerCase()] *)
Fixpoint toLowerCase (s : string) : string :=
  match s with
  | EmptyString => EmptyString
  | String c t => String (lowerChar c) (toLowerCase t)
  end.

(** [s.includes(sub)] *)
Fixpoint includes (s sub : string) : bool :=
  String.prefix sub s ||
  match s with
  | EmptyString => false
  | String _ t => includes t sub
  end.

(** [s.replaceAll(/(\d+)/g, '')]: every run of digits is replaced by the
    empty string. *)
Fixpoint removeDigits (s : string) : string :=
  match s with
  | EmptyString => EmptyString
  | String c t => if isDigit c then removeDigits t else String c (removeDigits t)
  end.

(** The greedy [\d*] at the head of [s]. *)
Fixpoint digitRun (s : string) : string :=
  match s with
  | EmptyString => EmptyString
  | String c t => if isDigit c then String c (digitRun t) else EmptyString
  end.

(** [s.match(/(\d+)/)?.[0]]; [None] stands for [undefined]. *)
Fixpoint matchDigits (s : string) : option string :=
  match s with
  | EmptyString => None
  | String c t => if isDigit c then Some (String c (digitRun t)) else matchDigits t
  end.

(** The part of the bracket pattern after its open bracket (the greedy
    star over [.], then the close bracket), tried at the head of [s]:
    [.] first consumes one more unit when it may and the rest still
    matches (greedy); otherwise the star stops and the unit has to be the
    closing bracket. *)
Fixpoint dotStarClose (s : string) : option string :=
  match s with
  | EmptyString => None
  | String c t =>
      if isLineTerminator c then None
      else match dotStarClose t with
           | Some m => Some (String c m)
           | None => if (c =? "]")%char then Some (String c EmptyString) else None
           end
  end.

(** [s.match(re)?.[0]] for the bracket pattern of line 89: the match at
    the leftmost start position that has one; [None] stands for a failed
    match. *)
Fixpoint matchBracket (s : string) : option string :=
  match s with
  | EmptyString => None
  | String c t =>
      match (if (c =? "[")%char then dotStarClose t else None) with
      | Some m => Some (String c m)
      | None => matchBracket t
      end
  end.

(** [===] on two values that are a string or [undefined]. *)
Definition strictEq (a b : option string) : bool :=
  match a, b with
  | Some x, Some y => (x =? y)%string
  | None, None => true
  | _, _ => false
  end.

(** [xs.join(sep)] *)
Definition join (sep : string) (xs : list string) : string := String.concat sep xs.

Section Arrays.
Context {A : Type}.

Fixpoint findIndexFrom (p : A -> bool) (i : Z) (xs : list A) : Z :=
  match xs with
  | [] => -1
  | x :: t => if p x then i else findIndexFrom p (i + 1) t
  end.

(** [xs.findIndex(p)] *)
Definition findIndex (p : A -> bool) (xs : list A) : Z := findIndexFrom p 0 xs.

(** [xs.find(p)] *)
Definition find (p : A -> bool) (xs : list A) : option A := List.find p xs.

(** [xs.sort(cmp)].  The sort is stable and driven by the sign of the
    comparator: the elements are taken left to right and each is placed
    in front of the first already placed element it compares below, as an
    insertion sort does.  For a consistent comparator this is the order
    the language prescribes.  The comparator of the program is consistent
    but for two unranked groups, each of which it puts below the other;
    there the language leaves the order to the engine, and the model puts
    the group that comes later in the array in front. *)
Fixpoint place (cmp : A -> A -> Z) (x : A) (sorted : list A) : list A :=
  match sorted with
  | [] => [x]
  | y :: t => if cmp x y <? 0 then x :: y :: t else y :: place cmp x t
  end.

Definition sort (cmp : A -> A -> Z) (xs : list A) : list A :=
  fold_left (fun sorted x => place cmp x sorted) xs [].
End Arrays.

End JS.

(** ** The parsed document *)

Module Dom.

Inductive Element : Type :=
| Elem (tagName : string) (attributes : list (string * string)) (children : list Element).

Definition tagName (e : Element) : string := let 'Elem t _ _ := e in t.
Definition attributes (e : Element) : list (string * string) := let 'Elem _ a _ := e in a.
Definition children (e : Element) : list Element := let 'Elem _ _ c := e in c.

(** [e.getAttribute(n)]; [None] stands for [null]. *)
Definition getAttribute (n : string) (e : Element) : option string :=
  option_map snd (List.find (fun kv => (fst kv =? n)%string) (attributes e)).

(** The compound selector [tag[k1="v1"][k2="v2"]...]. *)
Definition hasAttr (kv : string * string) (e : Element) : bool :=
  JS.strictEq (getAttribute (fst kv) e) (Some (snd kv)).

Definition matches (tag : string) (attrs : list (string * string)) (e : Element) : bool :=
  (tagName e =? tag)%string && forallb (fun kv => hasAttr kv e) attrs.

(** The descendants of an element in document order. *)
Fixpoint descendants (e : Element) : list Element :=
  let 'Elem _ _ cs := e in
  (fix walk (l : list Element) : list Element :=
     match l with
     | [] => []
     | c :: t => c :: descendants c ++ walk t
     end) cs.

(** [e.querySelector('tag[k="v"]')]: the first matching descendant. *)
Definition querySelector (tag : string) (attrs : list (string * string)) (e : Element)
  : option Element :=
  List.find (matches tag attrs) (descendants e).

(** [root.querySelector(':root > tag')] called on the root element. *)
Definition queryRootChild (tag : string) (root : Element) : option Element :=
  List.find (matches tag []) (children root).

(** [root.querySelectorAll(':root > list[...] > item')] called on the root
    element: the [item] children of the matching [list] children of the
    root, in document order. *)
Definition queryListItems (attrs : list (string * string)) (root : Element) : list Element :=
  flat_map (fun l => filter (matches "item" []) (children l))
           (filter (matches "list" attrs) (children root)).

End Dom.

(** ** The program *)

Record NoteAndName : Type := { note : string; name : string }.

Record PreferredOrderGrouping : Type :=
  { key : string; order : Z; notes : list string }.

Definition PREFERRED_ORDERS : list string :=
  rev [ "hat"; "kick"; "kick 2"; "kick 1"; "snare";
        "crash 3"; "crash 2"; "crash 1"; "crash";
        "ride"; "ride 3"; "ride 2"; "ride 1";
        "splash 2"; "splash 1"; "splash";
        "cymbal 4"; "cymbal 3"; "cymbal 2"; "cymbal 1"; "cymbal";
        "racktom 4"; "racktom 3"; "racktom 2"; "racktom 1"; "racktom";
        "floortom 4"; "floortom 3"; "floortom 2"; "floortom 1"; "floortom" ].

(** The callback handed to [findIndex] (lines 98-115): does the preference
    token [instrument] match the group key? *)
Definition instrumentMatches (curGroupKey instrument : string) : bool :=
  let curGroupKeyLower := JS.toLowerCase curGroupKey in
  let instWithoutNum := JS.toLowerCase (JS.removeDigits instrument) in
  let hasInstName := JS.includes curGroupKeyLower instWithoutNum in
  if hasInstName then
    let instOnlyNum := JS.matchDigits instrument in
    let curGroupKeyInstNumber := JS.matchDigits curGroupKey in
    if (String.length instWithoutNum =? String.length instrument)%nat then true
    else if JS.strictEq curGroupKeyInstNumber instOnlyNum then true
    else false
  else false.

Definition preferredOrder (curGroupKey : string) : Z :=
  JS.findIndex (instrumentMatches curGroupKey) PREFERRED_ORDERS.

Definition hasKey (k : string) (g : PreferredOrderGrouping) : bool := (key g =? k)%string.

Definition withNote (n : string) (g : PreferredOrderGrouping) : PreferredOrderGrouping :=
  {| key := key g; order := order g; notes := notes g ++ [n] |}.

(** [group.notes.push(note)] on the group object that [find] returned or
    that was just pushed: the object lives in [allGroups], so the array
    sees the new note. *)
Fixpoint pushNote (k n : string) (allGroups : list PreferredOrderGrouping)
  : list PreferredOrderGrouping :=
  match allGroups with
  | [] => []
  | g :: t =>
      if hasKey k g
      then withNote n g :: t
      else g :: pushNote k n t
  end.

(** The reducer of lines 88-123. *)
Definition addEntry (allGroups : list PreferredOrderGrouping) (e : NoteAndName)
  : list PreferredOrderGrouping :=
  match JS.matchBracket (name e) with
  | None => allGroups
  | Some curGroupKey =>
      let allGroups' :=
        match JS.find (hasKey curGroupKey) allGroups with
        | Some _ => allGroups
        | None =>
            allGroups ++
            [ {| key := curGroupKey; order := preferredOrder curGroupKey; notes := [] |} ]
        end in
      pushNote curGroupKey (note e) allGroups'
  end.

Definition buildGroups (notesAndNames : list NoteAndName) : list PreferredOrderGrouping :=
  fold_left addEntry notesAndNames [].

(** The comparator of lines 127-133. *)
Definition compareGroups (a b : PreferredOrderGrouping) : Z :=
  if order a =? -1 then -1
  else if order b =? -1 then 1
  else if order a >? order b then 1
  else if order a <? order b then -1
  else 0.

Definition sortedGroups (notesAndNames : list NoteAndName) : list PreferredOrderGrouping :=
  JS.sort compareGroups (buildGroups notesAndNames).

Definition NO (n : string) : string := ("NO " ++ n)%string.

Definition groupLines (g : PreferredOrderGrouping) : list string := map NO (notes g).

Definition groupByPreferred (notesAndNames : list NoteAndName) : list string :=
  fold_left (fun order group => order ++ groupLines group) (sortedGroups notesAndNames) [].

(** A value that is a string, [undefined] or [null], as the optional chain
    [e?.getAttribute('value')] yields it. *)
Inductive Attr : Type := Undefined | Null | Value (s : string).

Definition valueOf (q : option Dom.Element) : Attr :=
  match q with
  | None => Undefined
  | Some e => match Dom.getAttribute "value" e with
              | None => Null
              | Some s => Value s
              end
  end.

(** [a ?? ''] *)
Definition orEmpty (a : Attr) : string :=
  match a with Value s => s | _ => "" end.

(** A value substituted into a template literal. *)
Definition interpolate (a : Attr) : string :=
  match a with Value s => s | Undefined => "undefined" | Null => "null" end.

Definition headerName (drumMap : Dom.Element) : Attr :=
  valueOf (Dom.queryRootChild "string" drumMap).

(** Lines 153-161. *)
Definition addNoteAndName (filtered : list NoteAndName) (entry : Dom.Element)
  : list NoteAndName :=
  let name := orEmpty (valueOf (Dom.querySelector "string" [("name", "Name")] entry)) in
  let note := orEmpty (valueOf (Dom.querySelector "int" [("name", "INote")] entry)) in
  if (String.length name =? 0)%nat || (String.length note =? 0)%nat then filtered
  else filtered ++ [ {| note := note; name := name |} ].

Definition extractNotesAndNames (drumMap : Dom.Element) : list NoteAndName :=
  fold_left addNoteAndName
            (Dom.queryListItems [("name", "Map"); ("type", "list")] drumMap) [].

(** Lines 165-172. *)
Definition addOrderItem (notesAndNames : list NoteAndName)
           (filtered : list string) (entry : Dom.Element) : list string :=
  match Dom.getAttribute "value" entry with
  | None => filtered
  | Some orderValue =>
      match JS.find (fun e => (note e =? orderValue)%string) notesAndNames with
      | None => filtered
      | Some _ => filtered ++ [NO orderValue]
      end
  end.

Definition explicitOrderItems (drumMap : Dom.Element) (notesAndNames : list NoteAndName)
  : list string :=
  fold_left (addOrderItem notesAndNames)
            (Dom.queryListItems [("name", "Order"); ("type", "int")] drumMap) [].

Inductive Outcome : Type :=
| Returned (text : string)
| AssertionError (actual expected : nat).

Definition LF : string := String (ascii_of_N 10) EmptyString.

Definition noteAndNameLine (e : NoteAndName) : string :=
  (note e ++ " " ++ name e)%string.

Definition payload (header : Attr) (notesAndNames : list NoteAndName) (orderItems : list string)
  : string :=
  ("# " ++ interpolate header ++ LF ++
   JS.join LF (map noteAndNameLine notesAndNames) ++ LF ++
   "# Grouped order" ++ LF ++
   JS.join LF orderItems ++ LF)%string.

(** [convertDRMFileToText] from the parsed root element on;
    [usePreferredGrouping] is the truthiness of the process-wide flag. *)
Definition convertDRMFileToText (usePreferredGrouping : bool) (drumMap : Dom.Element)
  : Outcome :=
  let headerName := headerName drumMap in
  let notesAndNames := extractNotesAndNames drumMap in
  let orderItems :=
    if usePreferredGrouping then groupByPreferred notesAndNames
    else explicitOrderItems drumMap notesAndNames in
  if negb usePreferredGrouping && negb (length orderItems =? length notesAndNames)%nat
  then AssertionError (length orderItems) (length notesAndNames)
  else Returned (payload headerName notesAndNames orderItems).

(** The process-wide flag of line 15, [process.argv[3] ?? false]: the text
    of the fourth entry of [argv], or [false] when there is none. *)
Inductive Flag : Type := FlagFalse | FlagText (s : string).

Definition usePreferredGrouping (argv : list string) : Flag :=
  match nth_error argv 3 with
  | Some s => FlagText s
  | None => FlagFalse
  end.

(** The flag as a condition: [false] and the empty text are falsy, every
    other text is truthy. *)
Definition truthy (f : Flag) : bool :=
  match f with
  | FlagFalse => false
  | FlagText s => negb (String.length s =? 0)%nat
  end.

(** Lines 10-15: with fewer than three entries in [argv] the process prints
    the usage line and exits with the given code; otherwise the input
    directory and the flag are fixed. *)
Inductive Startup : Type :=
| Exit (code : Z)
| Configured (baseInputDir : string) (flag : Flag).

Definition startup (argv : list string) : Startup :=
  if (length argv <? 3)%nat then Exit 1
  else Configured (nth 2 argv EmptyString) (usePreferredGrouping argv).

(** ** Vocabulary of the statements *)

(** Does the unit [c] occur in [s]? *)
Fixpoint occurs (c : ascii) (s : string) : bool :=
  match s with
  | EmptyString => false
  | String d t => (d =? c)%char || occurs c t
  end.

(** [s] holds no line terminator. *)
Fixpoint oneLine (s : string) : bool :=
  match s with
  | EmptyString => true
  | String c t => negb (JS.isLineTerminator c) && oneLine t
  end.

(** The part of [s] in front of its first line terminator. *)
Fixpoint lineHead (s : string) : string :=
  match s with
  | EmptyString => EmptyString
  | String c t => if JS.isLineTerminator c then EmptyString else String c (lineHead t)
  end.

Fixpoint containsDigit (s : string) : bool :=
  match s with
  | EmptyString => false
  | String c t => JS.isDigit c || containsDigit t
  end.

(** The group key as the specification words it: from the first open
    bracket up to and including the next close bracket after it. *)
Fixpoint upToClose (s : string) : option string :=
  match s with
  | EmptyString => None
  | String c t =>
      if (c =? "]")%char then Some (String c EmptyString)
      else option_map (String c) (upToClose t)
  end.

Fixpoint firstPairKey (s : string) : option string :=
  match s with
  | EmptyString => None
  | String c t =>
      if (c =? "[")%char then option_map (String c) (upToClose t) else firstPairKey t
  end.

(** Is the head of [s] cut off by a line terminator before any close
    bracket?  An open bracket in front of such an [s] is not closed on its
    line. *)
Fixpoint lineBreaksBeforeClose (s : string) : bool :=
  match s with
  | EmptyString => false
  | String c t =>
      if JS.isLineTerminator c then true
      else if (c =? "]")%char then false
      else lineBreaksBeforeClose t
  end.

(** Every open bracket of [s] is cut off from the close brackets, within
    [s], by a line terminator. *)
Fixpoint unclosedOpens (s : string) : bool :=
  match s with
  | EmptyString => true
  | String c t =>
      (if (c =? "[")%char then lineBreaksBeforeClose t else true) && unclosedOpens t
  end.

(** [s] holds an open bracket followed later by a close bracket. *)
Fixpoint hasBracketPair (s : string) : bool :=
  match s with
  | EmptyString => false
  | String c t => ((c =? "[")%char && occurs "]" t) || hasBracketPair t
  end.

(** [s] holds an open bracket followed by a close bracket before any line
    terminator. *)
Fixpoint hasLineBracketPair (s : string) : bool :=
  match s with
  | EmptyString => false
  | String c t => ((c =? "[")%char && occurs "]" (lineHead t)) || hasLineBracketPair t
  end.

(** An entry whose name carries a bracket tag, and the tag. *)
Definition tagOf (e : NoteAndName) : option string := JS.matchBracket (name e).

Definition tagged (e : NoteAndName) : bool :=
  match tagOf e with Some _ => true | None => false end.

Definition hasTag (k : string) (e : NoteAndName) : bool := JS.strictEq (tagOf e) (Some k).

(** The notes of the entries tagged [k], in the order of the entry list. *)
Definition notesTagged (k : string) (entries : list NoteAndName) : list string :=
  map note (filter (hasTag k) entries).

Definition kickHatFoo : list NoteAndName :=
  [ {| note := "1"; name := "Kick [Kick]" |};
    {| note := "2"; name := "Hat [Hat]" |};
    {| note := "3"; name := "Unknown [Foo]" |} ].

(** The explicit order list of the document: the values of the items of
    the [Order] list, in document order. *)
Definition explicitOrder (drumMap : Dom.Element) : list string :=
  flat_map (fun item => match Dom.getAttribute "value" item with
                        | Some v => [v]
                        | None => []
                        end)
           (Dom.queryListItems [("name", "Order"); ("type", "int")] drumMap).

(** Is [v] the note of some entry? *)
Definition knownNote (entries : list NoteAndName) (v : string) : bool :=
  existsb (fun e => (note e =? v)%string) entries.

(** Sample documents, laid out as drum-map files are. *)
Definition mapItem (n nm : string) : Dom.Element :=
  Dom.Elem "item" []
    [ Dom.Elem "int" [("name", "INote"); ("value", n)] [];
      Dom.Elem "int" [("name", "ONote"); ("value", n)] [];
      Dom.Elem "string" [("name", "Name"); ("value", nm); ("wide", "true")] [] ].

Definition orderItem (n : string) : Dom.Element := Dom.Elem "item" [("value", n)] [].

Definition drumMapDoc (header : list Dom.Element) (items order : list Dom.Element)
  : Dom.Element :=
  Dom.Elem "DrumMap" []
    (header ++
     [ Dom.Elem "list" [("name", "Map"); ("type", "list")] items;
       Dom.Elem "list" [("name", "Order"); ("type", "int")] order ]).

Definition kitHeader : list Dom.Element :=
  [ Dom.Elem "string" [("name", "Name"); ("value", "Kit"); ("wide", "true")] [] ].

(** Two entries noted 1 and 2, explicit order 2, 1. *)
Definition twoOneDoc : Dom.Element :=
  drumMapDoc kitHeader
             [mapItem "1" "Kick [Kick]"; mapItem "2" "Hat [Hat]"]
             [orderItem "2"; orderItem "1"].

(** Two entries, but the explicit order names only one of them. *)
Definition shortOrderDoc : Dom.Element :=
  drumMapDoc kitHeader
             [mapItem "1" "Kick [Kick]"; mapItem "2" "Hat [Hat]"]
             [orderItem "2"].

(** A document without the header field. *)
Definition headerlessDoc : Dom.Element :=
  drumMapDoc [] [mapItem "36" "Kick [Kick]"] [orderItem "36"].

(** An entry without a bracket tag between two tagged ones. *)
Definition plainEntryDoc : Dom.Element :=
  drumMapDoc kitHeader
             [mapItem "1" "Kick [Kick]"; mapItem "5" "Cowbell"; mapItem "2" "Hat [Hat]"]
             [].

(** The tags of the entries, one per tagged entry, in the order of the list. *)
Definition tagsOf (entries : list NoteAndName) : list string :=
  flat_map (fun e => match tagOf e with Some k => [k] | None => [] end) entries.

Definition mem (k : string) (ks : list string) : bool := existsb (String.eqb k) ks.

(** The distinct texts of a list, each at the place of its first occurrence. *)
Fixpoint firstSeen (ks : list string) : list string :=
  match ks with
  | [] => []
  | k :: t => k :: filter (fun x => negb (x =? k)%string) (firstSeen t)
  end.

(** The entry an item of the [Map] list stands for, if it stands for one. *)
Definition itemName (item : Dom.Element) : string :=
  orEmpty (valueOf (Dom.querySelector "string" [("name", "Name")] item)).

Definition itemNote (item : Dom.Element) : string :=
  orEmpty (valueOf (Dom.querySelector "int" [("name", "INote")] item)).

(** An item is kept when its name and its note are both not empty. *)
Definition keptItem (item : Dom.Element) : bool :=
  negb ((String.length (itemName item) =? 0)%nat || (String.length (itemNote item) =? 0)%nat).

(** The ranks a group can get from the table: -1, and the indices of the
    tokens that no earlier token shadows. *)
Definition reachableRanks : list Z :=
  [-1; 0; 5; 10; 15; 18; 19; 20; 21; 22; 26; 27; 28; 29; 30].

(** The order the comparator of the sort stands for: an unranked group is
    never later than anything, a ranked one never later than a ranked one
    of the same or a higher rank. *)
Definition notAfter (a b : PreferredOrderGrouping) : Prop :=
  order a = -1 \/ (order b <> -1 /\ order a <= order b).

(** [gs] are the groups of [entries]: one per tag, each ranked by the table
    and holding the notes of its entries in the order of the list. *)
Definition GroupsOf (entries : list NoteAndName) (gs : list PreferredOrderGrouping) : Prop :=
  NoDup (map key gs) /\
  (forall g, In g gs ->
     order g = preferredOrder (key g) /\ notes g = notesTagged (key g) entries) /\
  (forall e k, In e entries -> tagOf e = Some k -> In k (map key gs)).

(** ** Strings *)

Lemma append_assoc (a b c : string) : ((a ++ b) ++ c = a ++ (b ++ c))%string.
Proof. induction a as [|x a IH]; simpl; [reflexivity | now rewrite IH]. Qed.

Lemma toLowerCase_length s : String.length (JS.toLowerCase s) = String.length s.
Proof. induction s as [|c s IH]; simpl; [reflexivity | now rewrite IH]. Qed.

Lemma removeDigits_length_le s :
  (String.length (JS.removeDigits s) <= String.length s)%nat.
Proof.
  induction s as [|c s IH]; simpl; [lia|].
  destruct (JS.isDigit c); simpl; lia.
Qed.

Lemma removeDigits_length_lt s :
  containsDigit s = true -> (String.length (JS.removeDigits s) < String.length s)%nat.
Proof.
  induction s as [|c s IH]; simpl; [discriminate|].
  pose proof (removeDigits_length_le s) as Hle.
  destruct (JS.isDigit c); simpl; intros H; [lia | specialize (IH H); lia].
Qed.

Lemma removeDigits_id s : containsDigit s = false -> JS.removeDigits s = s.
Proof.
  induction s as [|c s IH]; simpl; [reflexivity|].
  destruct (JS.isDigit c); simpl; [discriminate | intros H; now rewrite IH].
Qed.

Lemma strictEq_true a b : JS.strictEq a b = true <-> a = b.
Proof.
  destruct a as [x|], b as [y|]; simpl; split; intros H;
    try discriminate; try reflexivity.
  - apply String.eqb_eq in H. now subst.
  - injection H as ->. apply String.eqb_refl.
Qed.

(** ** The bracket pattern *)

Lemma dotStarClose_none s :
  occurs "]" (lineHead s) = false -> JS.dotStarClose s = None.
Proof.
  induction s as [|c s IH]; simpl; [reflexivity|].
  destruct (JS.isLineTerminator c); [reflexivity|]. simpl.
  intros H. apply orb_false_iff in H as [Hc Hs].
  rewrite (IH Hs), Hc. reflexivity.
Qed.

Lemma dotStarClose_greedy mid post :
  oneLine mid = true -> occurs "]" (lineHead post) = false ->
  JS.dotStarClose (mid ++ "]" ++ post) = Some (mid ++ "]")%string.
Proof.
  intros Hmid Hpost. induction mid as [|c mid IH]; simpl.
  - now rewrite (dotStarClose_none post Hpost).
  - simpl in Hmid. apply andb_true_iff in Hmid as [Hc Hmid].
    apply negb_true_iff in Hc. specialize (IH Hmid). simpl in IH.
    rewrite Hc, IH. reflexivity.
Qed.

Lemma matchBracket_greedy pre mid post :
  occurs "[" pre = false -> oneLine mid = true -> occurs "]" (lineHead post) = false ->
  JS.matchBracket (pre ++ "[" ++ mid ++ "]" ++ post) = Some ("[" ++ mid ++ "]")%string.
Proof.
  intros Hpre Hmid Hpost. induction pre as [|c pre IH]; simpl.
  - pose proof (dotStarClose_greedy mid post Hmid Hpost) as H. simpl in H.
    now rewrite H.
  - simpl in Hpre. apply orb_false_iff in Hpre as [Hc Hpre].
    rewrite Hc. apply IH, Hpre.
Qed.

(** A name without any open bracket, or without any close bracket, has no tag. *)
Lemma matchBracket_no_open s : occurs "[" s = false -> JS.matchBracket s = None.
Proof.
  induction s as [|c s IH]; simpl; [reflexivity|].
  intros H. apply orb_false_iff in H as [Hc Hs]. rewrite Hc. apply IH, Hs.
Qed.

Lemma dotStarClose_no_close s : occurs "]" s = false -> JS.dotStarClose s = None.
Proof.
  induction s as [|c s IH]; simpl; [reflexivity|].
  intros H. apply orb_false_iff in H as [Hc Hs].
  rewrite (IH Hs), Hc. now destruct (JS.isLineTerminator c).
Qed.

Lemma matchBracket_no_close s : occurs "]" s = false -> JS.matchBracket s = None.
Proof.
  induction s as [|c s IH]; simpl; [reflexivity|].
  intros H. apply orb_false_iff in H as [Hc Hs].
  rewrite (dotStarClose_no_close s Hs), (IH Hs). now destruct (c =? "[")%char.
Qed.

(** A match starts with an open bracket, ends with a close bracket and
    stays on one line. *)
Lemma dotStarClose_shape s m :
  JS.dotStarClose s = Some m ->
  exists mid, m = (mid ++ "]")%string /\ oneLine mid = true.
Proof.
  revert m. induction s as [|c s IH]; simpl; intros m; [discriminate|].
  destruct (JS.isLineTerminator c) eqn:Hlt; [discriminate|].
  destruct (JS.dotStarClose s) as [m'|].
  - intros [= <-]. destruct (IH m' eq_refl) as (mid & -> & Hmid).
    exists (String c mid). simpl. now rewrite Hlt, Hmid.
  - destruct (c =? "]")%char eqn:Hc; [|discriminate].
    intros [= <-]. apply Ascii.eqb_eq in Hc as ->. now exists EmptyString.
Qed.

Lemma matchBracket_shape s k :
  JS.matchBracket s = Some k ->
  exists mid, k = ("[" ++ mid ++ "]")%string /\ oneLine mid = true.
Proof.
  revert k. induction s as [|c s IH]; simpl; intros k; [discriminate|].
  destruct (c =? "[")%char eqn:Hc.
  - destruct (JS.dotStarClose s) as [m|] eqn:Hm; [|apply IH].
    intros [= <-]. apply Ascii.eqb_eq in Hc as ->.
    destruct (dotStarClose_shape s m Hm) as (mid & -> & Hmid). now exists mid.
  - apply IH.
Qed.

Lemma dotStarClose_prefix s m :
  JS.dotStarClose s = Some m -> exists post, s = (m ++ post)%string.
Proof.
  revert m. induction s as [|c s IH]; simpl; intros m; [discriminate|].
  destruct (JS.isLineTerminator c); [discriminate|].
  destruct (JS.dotStarClose s) as [m'|].
  - intros [= <-]. destruct (IH m' eq_refl) as (post & Hpost).
    exists post. simpl. now rewrite <- Hpost.
  - destruct (c =? "]")%char; [|discriminate]. intros [= <-]. now exists s.
Qed.

Lemma matchBracket_substring s k :
  JS.matchBracket s = Some k -> exists pre post, s = (pre ++ k ++ post)%string.
Proof.
  revert k. induction s as [|c s IH]; simpl; intros k; [discriminate|].
  assert (Hrec : JS.matchBracket s = Some k ->
                 exists pre post, String c s = (pre ++ k ++ post)%string).
  { intros H. destruct (IH k H) as (pre & post & ->). now exists (String c pre), post. }
  destruct (c =? "[")%char; [|exact Hrec].
  destruct (JS.dotStarClose s) as [m|] eqn:Hm; [|exact Hrec].
  intros [= <-]. destruct (dotStarClose_prefix s m Hm) as (post & ->).
  now exists EmptyString, post.
Qed.

Lemma dotStarClose_some mid post :
  oneLine mid = true -> JS.dotStarClose (mid ++ "]" ++ post) <> None.
Proof.
  intros Hmid. induction mid as [|c mid IH]; simpl.
  - now destruct (JS.dotStarClose post).
  - simpl in Hmid. apply andb_true_iff in Hmid as [Hc Hmid].
    apply negb_true_iff in Hc. rewrite Hc. specialize (IH Hmid). simpl in IH.
    destruct (JS.dotStarClose (mid ++ String "]" post)); [discriminate | contradiction].
Qed.

Lemma matchBracket_some pre mid post :
  oneLine mid = true -> JS.matchBracket (pre ++ "[" ++ mid ++ "]" ++ post) <> None.
Proof.
  intros Hmid. induction pre as [|c pre IH]; simpl.
  - pose proof (dotStarClose_some mid post Hmid) as H. simpl in H.
    now destruct (JS.dotStarClose (mid ++ String "]" post)).
  - simpl in IH.
    destruct (if (c =? "[")%char then _ else None); [discriminate | exact IH].
Qed.

(** The pattern matches exactly the names that hold an open bracket
    followed, on the same line, by a close bracket. *)
Lemma tagged_iff e :
  tagged e = true <->
  exists pre mid post,
    name e = (pre ++ "[" ++ mid ++ "]" ++ post)%string /\ oneLine mid = true.
Proof.
  unfold tagged, tagOf. split.
  - destruct (JS.matchBracket (name e)) as [k|] eqn:Hk; [intros _ | discriminate].
    destruct (matchBracket_shape _ _ Hk) as (mid & -> & Hmid).
    destruct (matchBracket_substring _ _ Hk) as (pre & post & Hs).
    exists pre, mid, post. split; [|assumption].
    rewrite Hs. simpl. now rewrite append_assoc.
  - intros (pre & mid & post & Hs & Hmid). rewrite Hs.
    pose proof (matchBracket_some pre mid post Hmid) as H.
    now destruct (JS.matchBracket _).
Qed.

(** The leftmost start of a match: the first open bracket that a close
    bracket follows on the same line. *)
Lemma dotStarClose_none_inv s :
  JS.dotStarClose s = None -> occurs "]" (lineHead s) = false.
Proof.
  induction s as [|c s IH]; simpl; [reflexivity|].
  destruct (JS.isLineTerminator c); [reflexivity|].
  destruct (JS.dotStarClose s); [discriminate|].
  destruct (c =? "]")%char eqn:Hc; [discriminate|].
  intros _. simpl. now rewrite Hc, IH.
Qed.

Lemma lineBreaks_dotStarClose p rest :
  lineBreaksBeforeClose p = true -> JS.dotStarClose (p ++ rest) = None.
Proof.
  induction p as [|c p IH]; simpl; [discriminate|].
  destruct (JS.isLineTerminator c); [reflexivity|].
  destruct (c =? "]")%char; [discriminate|].
  intros H. now rewrite (IH H).
Qed.

Lemma matchBracket_leftmost pre mid post :
  unclosedOpens pre = true -> oneLine mid = true -> occurs "]" (lineHead post) = false ->
  JS.matchBracket (pre ++ "[" ++ mid ++ "]" ++ post) = Some ("[" ++ mid ++ "]")%string.
Proof.
  intros Hpre Hmid Hpost. induction pre as [|c pre IH]; simpl.
  - pose proof (dotStarClose_greedy mid post Hmid Hpost) as H. simpl in H.
    now rewrite H.
  - simpl in Hpre. apply andb_true_iff in Hpre as [Hc Hpre].
    specialize (IH Hpre). simpl in IH.
    destruct (c =? "[")%char; [|exact IH].
    pose proof (lineBreaks_dotStarClose pre ("[" ++ mid ++ "]" ++ post) Hc) as H.
    simpl in H. now rewrite H.
Qed.

Lemma dotStarClose_split s m :
  JS.dotStarClose s = Some m ->
  exists mid post,
    s = (mid ++ "]" ++ post)%string /\ m = (mid ++ "]")%string
    /\ oneLine mid = true /\ occurs "]" (lineHead post) = false.
Proof.
  revert m. induction s as [|c s IH]; simpl; intros m; [discriminate|].
  destruct (JS.isLineTerminator c) eqn:Hlt; [discriminate|].
  destruct (JS.dotStarClose s) as [m'|] eqn:Hm.
  - intros [= <-]. destruct (IH m' eq_refl) as (mid & post & -> & -> & Hmid & Hpost).
    exists (String c mid), post. simpl. now rewrite Hlt, Hmid.
  - destruct (c =? "]")%char eqn:Hc; [|discriminate].
    intros [= <-]. apply Ascii.eqb_eq in Hc as ->.
    exists EmptyString, s. repeat split. now apply dotStarClose_none_inv.
Qed.

Lemma dotStarClose_none_lineBreaks p mid post :
  oneLine mid = true ->
  JS.dotStarClose (p ++ "[" ++ mid ++ "]" ++ post) = None ->
  lineBreaksBeforeClose p = true.
Proof.
  intros Hmid. induction p as [|c p IH]; simpl.
  - pose proof (dotStarClose_some mid post Hmid) as H. simpl in H.
    destruct (JS.dotStarClose (mid ++ String "]" post)); [discriminate | contradiction].
  - destruct (JS.isLineTerminator c); [reflexivity|].
    simpl in IH.
    destruct (JS.dotStarClose (p ++ String "[" (mid ++ String "]" post)));
      [discriminate|].
    destruct (c =? "]")%char; [discriminate | intros _; now apply IH].
Qed.

Lemma matchBracket_split s k :
  JS.matchBracket s = Some k ->
  exists pre mid post,
    s = (pre ++ "[" ++ mid ++ "]" ++ post)%string
    /\ k = ("[" ++ mid ++ "]")%string
    /\ unclosedOpens pre = true
    /\ oneLine mid = true
    /\ occurs "]" (lineHead post) = false.
Proof.
  revert k. induction s as [|c s IH]; simpl; intros k; [discriminate|].
  destruct (c =? "[")%char eqn:Hc.
  - apply Ascii.eqb_eq in Hc as ->.
    destruct (JS.dotStarClose s) as [m|] eqn:Hm.
    + intros [= <-].
      destruct (dotStarClose_split s m Hm) as (mid & post & -> & -> & Hmid & Hpost).
      now exists EmptyString, mid, post.
    + intros Hk.
      destruct (IH k Hk) as (pre & mid & post & -> & -> & Hpre & Hmid & Hpost).
      exists (String "[" pre), mid, post. repeat split; try assumption.
      simpl. now rewrite (dotStarClose_none_lineBreaks pre mid post Hmid Hm), Hpre.
  - intros Hk.
    destruct (IH k Hk) as (pre & mid & post & -> & -> & Hpre & Hmid & Hpost).
    exists (String c pre), mid, post. repeat split; try assumption.
    simpl. now rewrite Hc, Hpre.
Qed.

(** The pattern matches the names with an open bracket closed on its line,
    and those alone. *)
Lemma matchBracket_lineBracketPair s :
  match JS.matchBracket s with Some _ => true | None => false end
  = hasLineBracketPair s.
Proof.
  induction s as [|c s IH]; simpl; [reflexivity|].
  destruct (c =? "[")%char; simpl; [|exact IH].
  destruct (JS.dotStarClose s) as [m|] eqn:Hm.
  - destruct (occurs "]" (lineHead s)) eqn:Ho; [reflexivity|].
    rewrite (dotStarClose_none s Ho) in Hm. discriminate.
  - now rewrite (dotStarClose_none_inv s Hm).
Qed.

Lemma tagged_lineBracketPair e : tagged e = hasLineBracketPair (name e).
Proof. apply matchBracket_lineBracketPair. Qed.

Lemma matchBracket_no_pair s : hasBracketPair s = false -> JS.matchBracket s = None.
Proof.
  induction s as [|c s IH]; simpl; [reflexivity|].
  intros H. apply orb_false_iff in H as [Hc Hs]. rewrite (IH Hs).
  destruct (c =? "[")%char; [|reflexivity].
  simpl in Hc. now rewrite (dotStarClose_no_close s Hc).
Qed.

(** ** The sort *)

Section SortFacts.
Context {A : Type} (cmp : A -> A -> Z).

Lemma place_perm x l : Permutation (JS.place cmp x l) (x :: l).
Proof.
  induction l as [|y l IH]; simpl; [reflexivity|].
  destruct (cmp x y <? 0); [reflexivity|].
  rewrite IH. apply perm_swap.
Qed.

Lemma sort_from_perm xs acc :
  Permutation (fold_left (fun sorted x => JS.place cmp x sorted) xs acc) (acc ++ xs).
Proof.
  revert acc. induction xs as [|x xs IH]; intros acc; simpl.
  - now rewrite app_nil_r.
  - rewrite IH, place_perm. simpl. apply Permutation_middle.
Qed.

Lemma sort_perm xs : Permutation (JS.sort cmp xs) xs.
Proof. apply (sort_from_perm xs []). Qed.
End SortFacts.


Lemma compareGroups_below a b :
  (compareGroups a b <? 0) = true ->
  order a = -1 \/ (order a <> -1 /\ order b <> -1 /\ order a < order b).
Proof.
  unfold compareGroups.
  destruct (order a =? -1) eqn:Ea; [apply Z.eqb_eq in Ea; now left|].
  apply Z.eqb_neq in Ea.
  destruct (order b =? -1) eqn:Eb; [discriminate|]. apply Z.eqb_neq in Eb.
  destruct (order a >? order b) eqn:Egt; [discriminate|].
  destruct (order a <? order b) eqn:Elt; [|discriminate].
  apply Z.ltb_lt in Elt. intros _. right. repeat split; assumption.
Qed.

Lemma compareGroups_not_below a b :
  (compareGroups a b <? 0) = false -> notAfter b a.
Proof.
  unfold compareGroups, notAfter.
  destruct (order a =? -1) eqn:Ea; [discriminate|]. apply Z.eqb_neq in Ea.
  destruct (order b =? -1) eqn:Eb; [apply Z.eqb_eq in Eb; now left|].
  destruct (order a >? order b) eqn:Egt.
  - intros _. right. split; [assumption|]. apply Z.gtb_lt in Egt. lia.
  - destruct (order a <? order b) eqn:Elt; [discriminate|].
    apply Z.ltb_ge in Elt. intros _. right. split; assumption.
Qed.

Lemma place_sorted x l :
  StronglySorted notAfter l -> StronglySorted notAfter (JS.place compareGroups x l).
Proof.
  induction l as [|y l IH]; simpl; intros Hs.
  - constructor; constructor.
  - apply StronglySorted_inv in Hs as [Hl Hy].
    destruct (compareGroups x y <? 0) eqn:E.
    + constructor; [constructor; assumption|].
      apply compareGroups_below in E as [E | (Ex & Ey & Exy)].
      * apply Forall_forall. intros z _. now left.
      * constructor; [right; split; [assumption | lia]|].
        rewrite Forall_forall in Hy |- *. intros z Hz.
        destruct (Hy z Hz) as [Hc | [Hz1 Hz2]]; [contradiction|].
        right. split; [assumption | lia].
    + constructor; [apply IH, Hl|].
      apply (Permutation_Forall (Permutation_sym (place_perm compareGroups x l))).
      constructor; [apply compareGroups_not_below, E | assumption].
Qed.





(** The sort is stable on the ranked groups: those of one rank keep the
    order they had in the array. *)
Lemma filter_none {A} (p : A -> bool) l :
  Forall (fun x => p x = false) l -> filter p l = [].
Proof.
  induction 1 as [|x l Hx _ IH]; simpl; [reflexivity | now rewrite Hx].
Qed.

Lemma place_keeps_rank r x l :
  StronglySorted notAfter l -> r <> -1 ->
  filter (fun g => order g =? r) (JS.place compareGroups x l)
  = filter (fun g => order g =? r) l ++ (if order x =? r then [x] else []).
Proof.
  intros Hs Hr. induction l as [|y l IH]; simpl.
  - now destruct (order x =? r).
  - apply StronglySorted_inv in Hs as [Hl Hy].
    destruct (compareGroups x y <? 0) eqn:E.
    + simpl. destruct (order x =? r) eqn:Ex; [|now rewrite app_nil_r].
      apply Z.eqb_eq in Ex.
      apply compareGroups_below in E as [E | (_ & Ey & Exy)]; [lia|].
      assert (Hnone : Forall (fun g => (order g =? r) = false) (y :: l)).
      { constructor; [apply Z.eqb_neq; lia|].
        rewrite Forall_forall in Hy |- *. intros z Hz.
        destruct (Hy z Hz) as [Hc | [_ Hyz]]; [contradiction | apply Z.eqb_neq; lia]. }
      apply filter_none in Hnone. simpl in Hnone. now rewrite Hnone.
    + simpl. rewrite (IH Hl). now destruct (order y =? r).
Qed.

Lemma sort_from_keeps_rank r xs acc :
  StronglySorted notAfter acc -> r <> -1 ->
  filter (fun g => order g =? r)
         (fold_left (fun sorted x => JS.place compareGroups x sorted) xs acc)
  = filter (fun g => order g =? r) acc ++ filter (fun g => order g =? r) xs.
Proof.
  intros Hacc Hr. revert acc Hacc.
  induction xs as [|x xs IH]; intros acc Hacc; simpl; [now rewrite app_nil_r|].
  rewrite (IH _ (place_sorted x acc Hacc)), (place_keeps_rank r x acc Hacc Hr).
  rewrite <- app_assoc. now destruct (order x =? r).
Qed.

Lemma sort_stable_on_ranked r xs :
  r <> -1 ->
  filter (fun g => order g =? r) (JS.sort compareGroups xs)
  = filter (fun g => order g =? r) xs.
Proof. intros Hr. apply (sort_from_keeps_rank r xs []); [constructor | exact Hr]. Qed.

(** ** The groups *)

Lemma lines_fold gs acc :
  fold_left (fun order group => order ++ groupLines group) gs acc
  = acc ++ flat_map groupLines gs.
Proof.
  revert acc. induction gs as [|g gs IH]; intros acc; simpl.
  - now rewrite app_nil_r.
  - now rewrite IH, app_assoc.
Qed.

Lemma groupByPreferred_blocks entries :
  groupByPreferred entries = flat_map groupLines (sortedGroups entries).
Proof. unfold groupByPreferred. now rewrite lines_fold. Qed.

Lemma buildGroups_snoc entries e :
  buildGroups (entries ++ [e]) = addEntry (buildGroups entries) e.
Proof. unfold buildGroups. now rewrite fold_left_app. Qed.

Lemma hasKey_true k g : hasKey k g = true <-> key g = k.
Proof. apply String.eqb_eq. Qed.

Lemma hasKey_false k g : hasKey k g = false <-> key g <> k.
Proof. apply String.eqb_neq. Qed.

Lemma pushNote_keys k n gs : map key (pushNote k n gs) = map key gs.
Proof.
  induction gs as [|g gs IH]; simpl; [reflexivity|].
  destruct (hasKey k g); simpl; [reflexivity | now rewrite IH].
Qed.

Lemma pushNote_app_absent k n gs gs' :
  (forall g, In g gs -> hasKey k g = false) ->
  pushNote k n (gs ++ gs') = gs ++ pushNote k n gs'.
Proof.
  induction gs as [|g gs IH]; simpl; intros H; [reflexivity|].
  rewrite (H g (or_introl eq_refl)), IH; [reflexivity|].
  intros g' Hg'. apply H. now right.
Qed.

Lemma pushNote_In k n gs g' :
  NoDup (map key gs) -> In g' (pushNote k n gs) ->
  (In g' gs /\ key g' <> k) \/ (exists g, In g gs /\ key g = k /\ g' = withNote n g).
Proof.
  induction gs as [|g gs IH]; simpl; intros Hnd Hin; [contradiction|].
  apply NoDup_cons_iff in Hnd as [Hg Hnd].
  destruct (hasKey k g) eqn:Hk.
  - apply hasKey_true in Hk. destruct Hin as [<- | Hin].
    + right. exists g. auto.
    + left. split; [now right|]. intros Heq. apply Hg.
      rewrite Hk, <- Heq. now apply in_map.
  - apply hasKey_false in Hk. destruct Hin as [<- | Hin].
    + left. auto.
    + destruct (IH Hnd Hin) as [[H1 H2] | (g0 & H1 & H2 & H3)].
      * left. auto.
      * right. exists g0. auto.
Qed.

Lemma pushNote_lines k n gs :
  (exists g, In g gs /\ hasKey k g = true) ->
  Permutation (flat_map groupLines (pushNote k n gs)) (flat_map groupLines gs ++ [NO n]).
Proof.
  induction gs as [|g gs IH]; simpl; intros (g0 & Hin & Hk); [contradiction|].
  destruct (hasKey k g) eqn:Hg; simpl.
  - unfold groupLines at 1, withNote. simpl. rewrite map_app. simpl.
    fold (groupLines g). rewrite <- !app_assoc. apply Permutation_app_head.
    apply Permutation_app_comm.
  - destruct Hin as [-> | Hin]; [congruence|].
    rewrite <- app_assoc. apply Permutation_app_head, IH. now exists g0.
Qed.

Lemma notesTagged_snoc k entries e :
  notesTagged k (entries ++ [e])
  = notesTagged k entries ++ (if hasTag k e then [note e] else []).
Proof.
  unfold notesTagged. rewrite filter_app, map_app. simpl.
  now destruct (hasTag k e).
Qed.

Lemma notesTagged_absent k entries :
  (forall e, In e entries -> tagOf e <> Some k) -> notesTagged k entries = [].
Proof.
  induction entries as [|e entries IH]; intros H; [reflexivity|].
  unfold notesTagged in *. simpl.
  destruct (hasTag k e) eqn:He.
  - apply strictEq_true in He. exfalso. apply (H e); [now left | assumption].
  - apply IH. intros e' He'. apply H. now right.
Qed.

Lemma hasTag_other k k' e : tagOf e = Some k -> k' <> k -> hasTag k' e = false.
Proof.
  intros He Hne. unfold hasTag. rewrite He. simpl. now apply String.eqb_neq.
Qed.

Lemma hasTag_same k e : tagOf e = Some k -> hasTag k e = true.
Proof. intros He. unfold hasTag. rewrite He. simpl. apply String.eqb_refl. Qed.

Lemma hasTag_untagged k e : tagOf e = None -> hasTag k e = false.
Proof. intros He. unfold hasTag. now rewrite He. Qed.

Lemma addEntry_inv entries gs e :
  GroupsOf entries gs -> GroupsOf (entries ++ [e]) (addEntry gs e).
Proof.
  intros (Hnd & Hgs & Hcov). unfold addEntry. fold (tagOf e).
  destruct (tagOf e) as [k|] eqn:Hk.
  - destruct (JS.find (hasKey k) gs) as [g0|] eqn:Hfind.
    + apply find_some in Hfind as [Hg0 Hk0]. apply hasKey_true in Hk0.
      split; [|split].
      * now rewrite pushNote_keys.
      * intros g' Hg'. rewrite notesTagged_snoc.
        destruct (pushNote_In k (note e) gs g' Hnd Hg')
          as [[Hg Hne] | (g1 & Hg1 & Hk1 & ->)].
        -- rewrite (hasTag_other k _ e Hk Hne), app_nil_r. apply Hgs, Hg.
        -- destruct (Hgs g1 Hg1) as [Ho Hn]. simpl.
           rewrite Hk1 in *. rewrite (hasTag_same k e Hk), Hn. auto.
      * intros e' k' He' Hk'. rewrite pushNote_keys.
        apply in_app_or in He' as [He' | [<- | []]]; [now apply (Hcov e') |].
        assert (k' = k) as -> by congruence.
        rewrite <- Hk0. now apply in_map.
    + pose proof (find_none _ _ Hfind) as Hnone.
      rewrite (pushNote_app_absent k (note e) gs _ Hnone). simpl.
      unfold hasKey at 1. simpl. rewrite String.eqb_refl.
      assert (Hfresh : ~ In k (map key gs)).
      { intros Hin. apply in_map_iff in Hin as (g & Hkg & Hg).
        apply hasKey_true in Hkg. rewrite (Hnone g Hg) in Hkg. discriminate. }
      split; [|split].
      * rewrite map_app. simpl.
        apply (Permutation_NoDup (Permutation_cons_append (map key gs) k)).
        now constructor.
      * intros g' Hg'. rewrite notesTagged_snoc.
        apply in_app_or in Hg' as [Hg | [<- | []]].
        -- assert (Hne : key g' <> k).
           { intros Heq. apply Hfresh. rewrite <- Heq. now apply in_map. }
           rewrite (hasTag_other k _ e Hk Hne), app_nil_r. apply Hgs, Hg.
        -- simpl. split; [reflexivity|].
           rewrite (hasTag_same k e Hk), notesTagged_absent; [reflexivity|].
           intros e' He' Hk'. apply Hfresh. now apply (Hcov e').
      * intros e' k' He' Hk'. rewrite map_app. apply in_or_app.
        apply in_app_or in He' as [He' | [<- | []]]; [left; now apply (Hcov e') |].
        right. left. simpl. congruence.
  - split; [|split].
    + assumption.
    + intros g' Hg'.
      rewrite notesTagged_snoc, (hasTag_untagged _ e Hk), app_nil_r. apply Hgs, Hg'.
    + intros e' k' He' Hk'.
      apply in_app_or in He' as [He' | [<- | []]]; [now apply (Hcov e') | congruence].
Qed.

Lemma buildGroups_inv entries : GroupsOf entries (buildGroups entries).
Proof.
  induction entries as [|e entries IH] using rev_ind.
  - split; [constructor | split; [intros g [] | intros e k []]].
  - rewrite buildGroups_snoc. apply addEntry_inv, IH.
Qed.

Lemma sortedGroups_perm entries :
  Permutation (sortedGroups entries) (buildGroups entries).
Proof. apply sort_perm. Qed.


Lemma addEntry_untagged gs e : tagOf e = None -> addEntry gs e = gs.
Proof. unfold addEntry, tagOf. now intros ->. Qed.

Lemma addEntry_lines gs e :
  Permutation (flat_map groupLines (addEntry gs e))
              (flat_map groupLines gs ++ (if tagged e then [NO (note e)] else [])).
Proof.
  unfold addEntry, tagged. fold (tagOf e).
  destruct (tagOf e) as [k|] eqn:Hk; [|now rewrite app_nil_r].
  destruct (JS.find (hasKey k) gs) as [g0|] eqn:Hfind.
  - apply find_some in Hfind as [Hg0 Hk0]. apply pushNote_lines. now exists g0.
  - rewrite pushNote_lines.
    + rewrite flat_map_app. simpl. now rewrite !app_nil_r.
    + eexists. split; [apply in_elt|]. unfold hasKey. simpl. apply String.eqb_refl.
Qed.

Lemma buildGroups_lines entries :
  Permutation (flat_map groupLines (buildGroups entries))
              (map (fun e => NO (note e)) (filter tagged entries)).
Proof.
  induction entries as [|e entries IH] using rev_ind; [reflexivity|].
  rewrite buildGroups_snoc, addEntry_lines, IH, filter_app, map_app. simpl.
  now destruct (tagged e).
Qed.

Lemma buildGroups_from_filter entries acc :
  fold_left addEntry entries acc = fold_left addEntry (filter tagged entries) acc.
Proof.
  revert acc. induction entries as [|e entries IH]; intros acc; simpl; [reflexivity|].
  unfold tagged at 1. destruct (tagOf e) eqn:Hk; simpl.
  - apply IH.
  - rewrite (addEntry_untagged acc e Hk). apply IH.
Qed.

(** ** The explicit order *)

Lemma find_existsb {A} (p : A -> bool) l :
  existsb p l = match JS.find p l with Some _ => true | None => false end.
Proof.
  induction l as [|x l IH]; simpl; [reflexivity|].
  now destruct (p x).
Qed.

Lemma explicit_fold entries items acc :
  fold_left (addOrderItem entries) items acc
  = acc ++ map NO (filter (knownNote entries)
                          (flat_map (fun item => match Dom.getAttribute "value" item with
                                                 | Some v => [v]
                                                 | None => []
                                                 end) items)).
Proof.
  revert acc. induction items as [|item items IH]; intros acc; simpl.
  - now rewrite app_nil_r.
  - rewrite IH. unfold addOrderItem.
    destruct (Dom.getAttribute "value" item) as [v|]; simpl; [|reflexivity].
    unfold knownNote at 2. rewrite find_existsb.
    destruct (JS.find _ entries); simpl; [now rewrite <- app_assoc | reflexivity].
Qed.

Lemma explicitOrderItems_filter drumMap entries :
  explicitOrderItems drumMap entries
  = map NO (filter (knownNote entries) (explicitOrder drumMap)).
Proof. unfold explicitOrderItems. now rewrite explicit_fold. Qed.

Lemma headerName_absent drumMap :
  Dom.queryRootChild "string" drumMap = None -> headerName drumMap = Undefined.
Proof. unfold headerName. now intros ->. Qed.

(** ** Ranks *)



Lemma buildGroups_single e k : tagOf e = Some k -> map key (buildGroups [e]) = [k].
Proof.
  intros Hk. unfold buildGroups. simpl. unfold addEntry. fold (tagOf e).
  rewrite Hk. simpl. unfold hasKey. simpl. now rewrite String.eqb_refl.
Qed.

(** Without the header field the payload opens with the word the template
    literal makes of the absent value. *)
Lemma absent_header_line usePreferredGrouping drumMap text :
  Dom.queryRootChild "string" drumMap = None ->
  convertDRMFileToText usePreferredGrouping drumMap = Returned text ->
  exists rest, text = ("# undefined" ++ LF ++ rest)%string.
Proof.
  intros Hq. unfold convertDRMFileToText.
  rewrite (headerName_absent drumMap Hq).
  destruct (negb usePreferredGrouping && _); [discriminate|].
  intros [= <-]. unfold payload. simpl. eexists. reflexivity.
Qed.

(** ** Sample runs *)

Example sortedGroups_sample :
  map (fun g => (key g, order g, notes g))
      (sortedGroups [ {| note := "1"; name := "Bell [Misc]" |};
                      {| note := "2"; name := "Kick A [Kick]" |};
                      {| note := "3"; name := "Tom [Floortom 2]" |};
                      {| note := "4"; name := "Kick B [Kick]" |};
                      {| note := "5"; name := "Clap" |};
                      {| note := "6"; name := "Crash [CRASH 2]" |} ])
  = [ ("[Misc]", -1, ["1"]);
      ("[Floortom 2]", 0, ["3"]);
      ("[CRASH 2]", 22, ["6"]);
      ("[Kick]", 29, ["2"; "4"]) ].
Proof. reflexivity. Qed.

Example shortOrderDoc_asserts :
  convertDRMFileToText false shortOrderDoc = AssertionError 1 2.
Proof. reflexivity. Qed.

Example shortOrderDoc_inferred :
  convertDRMFileToText true shortOrderDoc
  = Returned ("# Kit" ++ LF ++ "1 Kick [Kick]" ++ LF ++ "2 Hat [Hat]" ++ LF ++
              "# Grouped order" ++ LF ++ "NO 1" ++ LF ++ "NO 2" ++ LF).
Proof. reflexivity. Qed.

Example twoOneDoc_explicit :
  convertDRMFileToText false twoOneDoc
  = Returned ("# Kit" ++ LF ++ "1 Kick [Kick]" ++ LF ++ "2 Hat [Hat]" ++ LF ++
              "# Grouped order" ++ LF ++ "NO 2" ++ LF ++ "NO 1" ++ LF).
Proof. reflexivity. Qed.

Example plainEntryDoc_inferred :
  convertDRMFileToText true plainEntryDoc
  = Returned ("# Kit" ++ LF ++
              "1 Kick [Kick]" ++ LF ++ "5 Cowbell" ++ LF ++ "2 Hat [Hat]" ++ LF ++
              "# Grouped order" ++ LF ++ "NO 1" ++ LF ++ "NO 2" ++ LF).
Proof. reflexivity. Qed.

Example tag_needs_one_line :
  JS.matchBracket ("Tom [A" ++ LF ++ "B]") = None
  /\ JS.matchBracket ("Tom [A" ++ LF ++ "[B] x]") = Some "[B] x]".
Proof. split; reflexivity. Qed.

Example numbered_tokens :
  map (fun k => preferredOrder k) ["[Kick 2]"; "[Ride 2]"; "[Ride]"; "[Crash 2]"; "[Crash]"]
  = [28; 19; 21; 22; 22].
Proof. reflexivity. Qed.

(** ** The claims *)

(** C1, as amended.  In inferred mode, for every entry whose name holds an
    open bracket followed on the same line by a close bracket, the group
    key is the text from the first open bracket that is closed on its line
    up to and including the last close bracket of that line.  Such a name
    splits as [pre[mid]post] with every open bracket of [pre] cut off from
    the close brackets by a line terminator, no line terminator in [mid]
    and no close bracket in [post] before its first line terminator; the
    key is [[mid]], whatever brackets [mid] itself holds, and every split
    of this kind gives the key. *)
Theorem C1_key_runs_to_last_close (n nm pre0 mid0 post0 : string) :
  nm = (pre0 ++ "[" ++ mid0 ++ "]" ++ post0)%string ->
  oneLine mid0 = true ->
  (exists pre mid post,
      nm = (pre ++ "[" ++ mid ++ "]" ++ post)%string
      /\ unclosedOpens pre = true
      /\ oneLine mid = true
      /\ occurs "]" (lineHead post) = false
      /\ tagOf {| note := n; name := nm |} = Some ("[" ++ mid ++ "]")%string
      /\ map key (buildGroups [ {| note := n; name := nm |} ])
         = [ ("[" ++ mid ++ "]")%string ])
  /\ (forall pre mid post,
        nm = (pre ++ "[" ++ mid ++ "]" ++ post)%string ->
        unclosedOpens pre = true ->
        oneLine mid = true ->
        occurs "]" (lineHead post) = false ->
        tagOf {| note := n; name := nm |} = Some ("[" ++ mid ++ "]")%string).
Proof.
  intros Hnm Hmid0. split.
  - destruct (JS.matchBracket nm) as [k|] eqn:Hk.
    + destruct (matchBracket_split nm k Hk)
        as (pre & mid & post & Hs & -> & Hpre & Hmid & Hpost).
      exists pre, mid, post. repeat split; try assumption.
      now apply buildGroups_single.
    + exfalso. rewrite Hnm in Hk.
      exact (matchBracket_some pre0 mid0 post0 Hmid0 Hk).
  - intros pre mid post -> Hpre Hmid Hpost.
    now apply matchBracket_leftmost.
Qed.

Lemma C1_key_runs_to_last_close_witness :
  (exists pre mid post,
      ("Tom [A" ++ LF ++ "[B] x [C] end")%string = (pre ++ "[" ++ mid ++ "]" ++ post)%string
      /\ unclosedOpens pre = true
      /\ oneLine mid = true
      /\ occurs "]" (lineHead post) = false
      /\ tagOf {| note := "45"; name := "Tom [A" ++ LF ++ "[B] x [C] end" |}
         = Some ("[" ++ mid ++ "]")%string
      /\ map key (buildGroups [ {| note := "45"; name := "Tom [A" ++ LF ++ "[B] x [C] end" |} ])
         = [ ("[" ++ mid ++ "]")%string ])
  /\ tagOf {| note := "45"; name := "Tom [A" ++ LF ++ "[B] x [C] end" |}
     = Some "[B] x [C]".
Proof.
  destruct (C1_key_runs_to_last_close
              "45" ("Tom [A" ++ LF ++ "[B] x [C] end") ("Tom [A" ++ LF) "B" " x [C] end"
              eq_refl eq_refl) as [Hex Hall].
  split; [exact Hex|].
  apply (Hall ("Tom [A" ++ LF)%string "B] x [C" " end"); reflexivity.
Defined.

(** C1 as the specification states it fails: on a name with two bracket
    pairs the first pair alone would give the key [[A]], the program takes
    [[A] x [B]]. *)
Lemma C1_first_pair_counterexample :
  firstPairKey "Tom [A] x [B]" = Some "[A]"
  /\ tagOf {| note := "45"; name := "Tom [A] x [B]" |} = Some "[A] x [B]"
  /\ map key (buildGroups [ {| note := "45"; name := "Tom [A] x [B]" |} ]) <> [ "[A]" ].
Proof. repeat split. vm_compute. discriminate. Qed.

(** C2, as amended.  On the three sample entries the resolver returns
    [NO 3] (unranked), then [NO 1] (kick, rank 29), then [NO 2] (hat,
    rank 30): in the reversed table [hat] is the last token. *)
Theorem C2_kick_hat_foo_order :
  map preferredOrder ["[Kick]"; "[Hat]"; "[Foo]"] = [29; 30; -1]
  /\ groupByPreferred kickHatFoo = ["NO 3"; "NO 1"; "NO 2"].
Proof. split; reflexivity. Qed.

(** C2 as the specification states it fails: the output is not
    [NO 3], [NO 2], [NO 1]. *)
Lemma C2_stated_order_counterexample :
  groupByPreferred kickHatFoo <> ["NO 3"; "NO 2"; "NO 1"].
Proof. vm_compute. discriminate. Qed.


(** C4.  A preference token that holds a digit does not match a group key
    whose first run of digits differs, as a string, from the first run of
    digits of the token. *)
Theorem C4_numeric_tiebreak (curGroupKey instrument : string) :
  containsDigit instrument = true ->
  JS.matchDigits curGroupKey <> JS.matchDigits instrument ->
  instrumentMatches curGroupKey instrument = false.
Proof.
  intros Hd Hne. unfold instrumentMatches.
  destruct (JS.includes _ _); [|reflexivity].
  pose proof (removeDigits_length_lt instrument Hd) as Hlt.
  rewrite toLowerCase_length.
  destruct (Nat.eqb_spec (String.length (JS.removeDigits instrument))
                         (String.length instrument)) as [Heq|_]; [lia|].
  destruct (JS.strictEq _ _) eqn:He; [|reflexivity].
  apply strictEq_true in He. contradiction.
Qed.

Lemma C4_numeric_tiebreak_witness :
  JS.includes (JS.toLowerCase "[Crash 2]") (JS.toLowerCase (JS.removeDigits "crash 1")) = true
  /\ instrumentMatches "[Crash 2]" "crash 1" = false.
Proof.
  split; [reflexivity|].
  apply (C4_numeric_tiebreak "[Crash 2]" "crash 1"); [reflexivity|].
  vm_compute. discriminate.
Defined.

(** C5.  A preference token without digits matches every group key whose
    lower-cased text contains the lower-cased base name of the token,
    whatever digits the key holds. *)
Theorem C5_bare_token_matches (curGroupKey instrument : string) :
  containsDigit instrument = false ->
  JS.includes (JS.toLowerCase curGroupKey)
              (JS.toLowerCase (JS.removeDigits instrument)) = true ->
  instrumentMatches curGroupKey instrument = true.
Proof.
  intros Hd Hin. unfold instrumentMatches. rewrite Hin.
  rewrite toLowerCase_length, (removeDigits_id instrument Hd), Nat.eqb_refl.
  reflexivity.
Qed.

Lemma C5_bare_token_matches_witness :
  JS.matchDigits "[Hat 2]" = Some "2" /\ instrumentMatches "[Hat 2]" "hat" = true.
Proof.
  split; [reflexivity|].
  apply (C5_bare_token_matches "[Hat 2]" "hat"); reflexivity.
Defined.

(** C6.  In inferred mode an entry whose name holds no open bracket
    followed by a close bracket contributes nothing to the grouped output:
    the output is the one of the entry list without it, nothing is put at
    the end for it.  The flat block of the payload still has its line,
    note, a space, name, at its place in extraction order. *)
Theorem C6_untagged_entries_dropped (before after : list NoteAndName) (e : NoteAndName) :
  hasBracketPair (name e) = false ->
  groupByPreferred (before ++ e :: after) = groupByPreferred (before ++ after)
  /\ (forall drumMap,
        extractNotesAndNames drumMap = before ++ e :: after ->
        convertDRMFileToText true drumMap
        = Returned ("# " ++ interpolate (headerName drumMap) ++ LF ++
                    JS.join LF (map (fun x => (note x ++ " " ++ name x)%string) before
                                ++ [(note e ++ " " ++ name e)%string]
                                ++ map (fun x => (note x ++ " " ++ name x)%string) after)%list
                    ++ LF ++
                    "# Grouped order" ++ LF ++
                    JS.join LF (groupByPreferred (before ++ after)) ++ LF)%string).
Proof.
  intros Hpair.
  assert (Hdrop : groupByPreferred (before ++ e :: after)
                  = groupByPreferred (before ++ after)).
  { unfold groupByPreferred, sortedGroups, buildGroups.
    rewrite !fold_left_app. simpl.
    rewrite addEntry_untagged; [reflexivity|].
    now apply matchBracket_no_pair. }
  split; [exact Hdrop|].
  intros drumMap Hextract. unfold convertDRMFileToText. simpl.
  rewrite Hextract, Hdrop. unfold payload.
  now rewrite map_app.
Qed.

Lemma C6_untagged_entries_dropped_witness :
  groupByPreferred [ {| note := "1"; name := "Kick [Kick]" |};
                     {| note := "5"; name := "Cowbell" |};
                     {| note := "2"; name := "Hat [Hat]" |} ]
  = ["NO 1"; "NO 2"]
  /\ convertDRMFileToText true plainEntryDoc
     = Returned ("# Kit" ++ LF ++
                 "1 Kick [Kick]" ++ LF ++ "5 Cowbell" ++ LF ++ "2 Hat [Hat]" ++ LF ++
                 "# Grouped order" ++ LF ++ "NO 1" ++ LF ++ "NO 2" ++ LF).
Proof.
  destruct (C6_untagged_entries_dropped
              [ {| note := "1"; name := "Kick [Kick]" |} ]
              [ {| note := "2"; name := "Hat [Hat]" |} ]
              {| note := "5"; name := "Cowbell" |} eq_refl) as [Hdrop Hdoc].
  split; [exact Hdrop | exact (Hdoc plainEntryDoc eq_refl)].
Defined.

(** C7.  In explicit mode the order items are the explicit order list of
    the document, restricted to the identifiers that are the note of some
    entry, in document order; the payload of a successful conversion
    carries exactly these lines.  For the explicit order 2, 1 over entries
    noted 1 and 2 the lines are [NO 2], [NO 1].  No preference table
    enters. *)
Theorem C7_explicit_order_replayed :
  (forall drumMap entries,
      explicitOrderItems drumMap entries
      = map NO (filter (knownNote entries) (explicitOrder drumMap)))
  /\ (forall drumMap text,
        convertDRMFileToText false drumMap = Returned text ->
        text = payload (headerName drumMap) (extractNotesAndNames drumMap)
                 (map NO (filter (knownNote (extractNotesAndNames drumMap))
                                 (explicitOrder drumMap))))
  /\ explicitOrder twoOneDoc = ["2"; "1"]
  /\ map note (extractNotesAndNames twoOneDoc) = ["1"; "2"]
  /\ explicitOrderItems twoOneDoc (extractNotesAndNames twoOneDoc) = ["NO 2"; "NO 1"].
Proof.
  split; [exact explicitOrderItems_filter|].
  split; [|repeat split].
  intros drumMap text. unfold convertDRMFileToText. simpl.
  destruct (negb _); [discriminate|].
  intros [= <-]. now rewrite explicitOrderItems_filter.
Qed.

(** C8.  In explicit mode a conversion that returns has as many order
    items as entries, and every mismatch ends in the assertion failure; in
    inferred mode the conversion always returns. *)
Theorem C8_explicit_length_assertion (drumMap : Dom.Element) :
  (forall text,
      convertDRMFileToText false drumMap = Returned text ->
      length (explicitOrderItems drumMap (extractNotesAndNames drumMap))
      = length (extractNotesAndNames drumMap))
  /\ (length (explicitOrderItems drumMap (extractNotesAndNames drumMap))
      <> length (extractNotesAndNames drumMap) ->
      convertDRMFileToText false drumMap
      = AssertionError (length (explicitOrderItems drumMap (extractNotesAndNames drumMap)))
                       (length (extractNotesAndNames drumMap)))
  /\ (exists text, convertDRMFileToText true drumMap = Returned text).
Proof.
  unfold convertDRMFileToText. simpl.
  destruct (Nat.eqb_spec (length (explicitOrderItems drumMap (extractNotesAndNames drumMap)))
                         (length (extractNotesAndNames drumMap))) as [Heq | Hne]; simpl.
  - split; [intros _ _; exact Heq|]. split; [intros H; contradiction | eauto].
  - split; [discriminate|]. split; [reflexivity | eauto].
Qed.

(** C9, on the code.  For a document without the header field the
    extracted header is absent and no error is raised, but the first line
    of the payload is [# undefined], not [# ]: the absent value is
    substituted into the template as it is. *)
Theorem C9_absent_header_prints_undefined :
  Dom.queryRootChild "string" headerlessDoc = None
  /\ headerName headerlessDoc = Undefined
  /\ convertDRMFileToText false headerlessDoc
     = Returned ("# undefined" ++ LF ++ "36 Kick [Kick]" ++ LF ++
                 "# Grouped order" ++ LF ++ "NO 36" ++ LF)
  /\ convertDRMFileToText true headerlessDoc
     = Returned ("# undefined" ++ LF ++ "36 Kick [Kick]" ++ LF ++
                 "# Grouped order" ++ LF ++ "NO 36" ++ LF).
Proof. repeat split. Qed.

(** C10, as amended.  In inferred mode the output holds one line, the
    text NO, a space and the note, for each entry whose name holds an open
    bracket followed by a close bracket before any line terminator, none
    lost and none doubled: it is a rearrangement of the lines of these
    entries, and as long as their list. *)
Theorem C10_one_line_per_tagged_entry (entries : list NoteAndName) :
  Permutation (groupByPreferred entries)
              (map (fun e => ("NO " ++ note e)%string)
                   (filter (fun e => hasLineBracketPair (name e)) entries))
  /\ length (groupByPreferred entries)
     = length (filter (fun e => hasLineBracketPair (name e)) entries).
Proof.
  assert (H : Permutation (groupByPreferred entries)
                          (map (fun e => ("NO " ++ note e)%string)
                               (filter (fun e => hasLineBracketPair (name e)) entries))).
  { rewrite groupByPreferred_blocks.
    rewrite (Permutation_flat_map groupLines (sortedGroups_perm entries)).
    rewrite (filter_ext _ tagged (fun e => eq_sym (tagged_lineBracketPair e))).
    apply buildGroups_lines. }
  split; [exact H|].
  rewrite (Permutation_length H). apply length_map.
Qed.

(** C10 as the specification states it fails: a name whose bracket pair
    spans a line terminator holds a bracketed substring, and its entry
    gives no line. *)
Lemma C10_line_break_counterexample :
  hasBracketPair ("Tom [A" ++ LF ++ "B]") = true
  /\ groupByPreferred [ {| note := "45"; name := "Tom [A" ++ LF ++ "B]" |} ] = []
  /\ length (groupByPreferred [ {| note := "45"; name := "Tom [A" ++ LF ++ "B]" |} ])
     <> length [ {| note := "45"; name := "Tom [A" ++ LF ++ "B]" |} ].
Proof. repeat split. vm_compute. discriminate. Qed.

(** * Further properties of the code *)

(** ** Substrings *)

Lemma prefix_iff a s :
  String.prefix a s = true <-> exists post, s = (a ++ post)%string.
Proof.
  revert s. induction a as [|c a IH]; intros s; simpl.
  - destruct s; split; intros _; eauto.
  - destruct s as [|d s]; simpl.
    + split; [discriminate | intros (post & H); discriminate].
    + destruct (ascii_dec c d) as [->|Hne].
      * rewrite IH. split; intros (post & H); exists post; congruence.
      * split; [discriminate | intros (post & H); congruence].
Qed.

Lemma includes_iff s sub :
  JS.includes s sub = true <-> exists pre post, s = (pre ++ sub ++ post)%string.
Proof.
  induction s as [|c s IH]; cbn [JS.includes].
  - rewrite orb_false_r, prefix_iff. split.
    + intros (post & H). now exists EmptyString, post.
    + intros (pre & post & H). destruct pre; [now exists post | discriminate].
  - rewrite orb_true_iff, prefix_iff, IH. split.
    + intros [(post & H) | (pre & post & H)].
      * now exists EmptyString, post.
      * exists (String c pre), post. simpl. now rewrite H.
    + intros (pre & post & H). destruct pre as [|d pre]; simpl in H.
      * left. now exists post.
      * right. exists pre, post. congruence.
Qed.

Lemma includes_trans s m sub :
  JS.includes s m = true -> JS.includes m sub = true -> JS.includes s sub = true.
Proof.
  rewrite !includes_iff. intros (p1 & q1 & ->) (p2 & q2 & ->).
  exists (p1 ++ p2)%string, (q2 ++ q1)%string.
  now rewrite !append_assoc.
Qed.

(** ** Lower case and digits *)

Lemma lowerChar_digit c :
  JS.isDigit (JS.lowerChar c) = JS.isDigit c
  /\ (JS.isDigit c = true -> JS.lowerChar c = c).
Proof.
  destruct c as [[] [] [] [] [] [] [] []]; split; try reflexivity; discriminate.
Qed.

Lemma digitRun_lower s : JS.digitRun (JS.toLowerCase s) = JS.digitRun s.
Proof.
  induction s as [|c s IH]; simpl; [reflexivity|].
  destruct (lowerChar_digit c) as [H1 H2]. rewrite H1.
  destruct (JS.isDigit c); [|reflexivity]. now rewrite (H2 eq_refl), IH.
Qed.

Lemma matchDigits_lower s : JS.matchDigits (JS.toLowerCase s) = JS.matchDigits s.
Proof.
  induction s as [|c s IH]; simpl; [reflexivity|].
  destruct (lowerChar_digit c) as [H1 H2]. rewrite H1.
  destruct (JS.isDigit c); [|exact IH]. now rewrite (H2 eq_refl), digitRun_lower.
Qed.

Lemma instrumentMatches_case k1 k2 instrument :
  JS.toLowerCase k1 = JS.toLowerCase k2 ->
  instrumentMatches k1 instrument = instrumentMatches k2 instrument.
Proof.
  intros H. unfold instrumentMatches.
  rewrite <- (matchDigits_lower k1), <- (matchDigits_lower k2), H. reflexivity.
Qed.

Lemma findIndexFrom_ext {A} (p q : A -> bool) xs i :
  (forall x, p x = q x) -> JS.findIndexFrom p i xs = JS.findIndexFrom q i xs.
Proof.
  intros H. revert i. induction xs as [|x xs IH]; intros i; simpl; [reflexivity|].
  now rewrite H, IH.
Qed.

(** ** First match *)

Lemma findIndexFrom_first {A} (p : A -> bool) xs i :
  (JS.findIndexFrom p i xs = -1 /\ Forall (fun x => p x = false) xs)
  \/ (exists pre x post,
        xs = pre ++ x :: post
        /\ JS.findIndexFrom p i xs = i + Z.of_nat (length pre)
        /\ p x = true
        /\ Forall (fun y => p y = false) pre).
Proof.
  revert i. induction xs as [|x xs IH]; intros i; simpl.
  - left. split; [reflexivity | constructor].
  - destruct (p x) eqn:Hx.
    + right. exists [], x, xs. simpl. repeat split; [lia | assumption | constructor].
    + destruct (IH (i + 1)) as [[H1 H2] | (pre & y & post & -> & H2 & H3 & H4)].
      * left. split; [assumption | now constructor].
      * right. exists (x :: pre), y, post. simpl length.
        repeat split; [lia | assumption | now constructor].
Qed.

(** A numbered token matches only keys that the bare token, which holds
    the same name without the digits, matches as well. *)
Lemma numbered_implies_bare k numbered bare :
  containsDigit bare = false ->
  JS.includes (JS.toLowerCase (JS.removeDigits numbered)) (JS.toLowerCase bare) = true ->
  instrumentMatches k numbered = true ->
  instrumentMatches k bare = true.
Proof.
  intros Hd Hsub. unfold instrumentMatches at 1.
  destruct (JS.includes (JS.toLowerCase k) (JS.toLowerCase (JS.removeDigits numbered)))
    eqn:Hin; [intros _ | discriminate].
  unfold instrumentMatches.
  rewrite (removeDigits_id bare Hd), (includes_trans _ _ _ Hin Hsub).
  now rewrite toLowerCase_length, Nat.eqb_refl.
Qed.

(** ** The tag of a name *)

(** X1.  A tag is a piece of the name it was taken from; it opens with an
    open bracket, closes with a close bracket and holds no line
    terminator. *)
Theorem tag_is_bracketed_piece_of_name (e : NoteAndName) (k : string) :
  tagOf e = Some k ->
  exists pre mid post,
    name e = (pre ++ k ++ post)%string
    /\ k = ("[" ++ mid ++ "]")%string
    /\ oneLine mid = true.
Proof.
  unfold tagOf. intros Hk.
  destruct (matchBracket_shape _ _ Hk) as (mid & Hmid & Hline).
  destruct (matchBracket_substring _ _ Hk) as (pre & post & Hname).
  now exists pre, mid, post.
Qed.

Lemma tag_is_bracketed_piece_of_name_witness :
  exists pre mid post,
    "Tom [A] x [B] end" = (pre ++ "[A] x [B]" ++ post)%string
    /\ "[A] x [B]" = ("[" ++ mid ++ "]")%string
    /\ oneLine mid = true.
Proof.
  apply (tag_is_bracketed_piece_of_name
           {| note := "45"; name := "Tom [A] x [B] end" |} "[A] x [B]").
  reflexivity.
Defined.

(** ** Ranks *)

(** X2.  The rank of a key is the index of the first token of the table
    that matches it: the token at that index matches and none in front of
    it does; the rank is -1 exactly when no token of the table matches. *)
Theorem preferredOrder_first_match (k : string) :
  (preferredOrder k = -1
   /\ Forall (fun t => instrumentMatches k t = false) PREFERRED_ORDERS)
  \/ (exists earlier t later,
        PREFERRED_ORDERS = earlier ++ t :: later
        /\ preferredOrder k = Z.of_nat (length earlier)
        /\ instrumentMatches k t = true
        /\ Forall (fun u => instrumentMatches k u = false) earlier).
Proof.
  apply (findIndexFrom_first (instrumentMatches k) PREFERRED_ORDERS 0).
Qed.

(** X3.  Ranking ignores case while grouping does not: two entries whose
    tags differ, but only in case, form two groups of the same rank. *)
Theorem tags_differing_in_case (e1 e2 : NoteAndName) (k1 k2 : string) :
  tagOf e1 = Some k1 ->
  tagOf e2 = Some k2 ->
  k1 <> k2 ->
  JS.toLowerCase k1 = JS.toLowerCase k2 ->
  preferredOrder k1 = preferredOrder k2
  /\ buildGroups [e1; e2]
     = [ {| key := k1; order := preferredOrder k1; notes := [note e1] |};
         {| key := k2; order := preferredOrder k1; notes := [note e2] |} ].
Proof.
  intros H1 H2 Hne Hcase.
  assert (Hrank : preferredOrder k1 = preferredOrder k2).
  { apply findIndexFrom_ext. intros t. now apply instrumentMatches_case. }
  split; [exact Hrank|].
  unfold buildGroups. simpl. unfold addEntry. fold (tagOf e1) (tagOf e2).
  rewrite H1, H2. apply String.eqb_neq in Hne.
  repeat (unfold hasKey; simpl; rewrite ?String.eqb_refl, ?Hne).
  now rewrite Hrank.
Qed.

Lemma tags_differing_in_case_witness :
  preferredOrder "[Kick]" = preferredOrder "[KICK]"
  /\ buildGroups [ {| note := "36"; name := "A [Kick]" |};
                   {| note := "35"; name := "B [KICK]" |} ]
     = [ {| key := "[Kick]"; order := preferredOrder "[Kick]"; notes := ["36"] |};
         {| key := "[KICK]"; order := preferredOrder "[Kick]"; notes := ["35"] |} ].
Proof.
  apply (tags_differing_in_case
           {| note := "36"; name := "A [Kick]" |}
           {| note := "35"; name := "B [KICK]" |} "[Kick]" "[KICK]");
    [reflexivity | reflexivity | discriminate | reflexivity].
Defined.

Ltac rank_found k :=
  first
    [ solve [ repeat (first [ left; reflexivity | right ]) ]
    | match goal with
      | Ht : instrumentMatches k ?t = true,
        Hb : instrumentMatches k ?b = false |- _ =>
          exfalso;
          rewrite (numbered_implies_bare k t b eq_refl eq_refl Ht) in Hb;
          discriminate Hb
      end ].

Ltac rank_scan k :=
  lazymatch goal with
  | |- In (if instrumentMatches k ?t then _ else _) _ =>
      let H := fresh "Hm" in
      destruct (instrumentMatches k t) eqn:H; [rank_found k | rank_scan k]
  | |- _ => rank_found k
  end.

(** X4.  The numbered tokens that stand behind their bare token in the
    table (floortom, racktom, cymbal, splash and crash with a number) never
    give a rank: a key they match is matched by the bare token first.  The
    only ranks are -1, the bare tokens, and the numbered ride and kick
    tokens. *)
Theorem preferredOrder_reachable (k : string) : In (preferredOrder k) reachableRanks.
Proof.
  unfold preferredOrder, JS.findIndex.
  cbv [PREFERRED_ORDERS rev app]. cbn [JS.findIndexFrom].
  rank_scan k.
Qed.

(** ** The order of the groups *)

Lemma mem_filter (p : string -> bool) k l : mem k (filter p l) = p k && mem k l.
Proof.
  unfold mem. induction l as [|x l IH]; simpl; [now rewrite andb_false_r|].
  destruct (String.eqb_spec k x) as [->|Hne].
  - destruct (p x); simpl; [now rewrite String.eqb_refl | exact IH].
  - destruct (p x); simpl; [|exact IH].
    apply String.eqb_neq in Hne. now rewrite Hne.
Qed.

Lemma mem_firstSeen k l : mem k (firstSeen l) = mem k l.
Proof.
  induction l as [|a l IH]; [reflexivity|].
  change (mem k (firstSeen (a :: l)))
    with ((k =? a)%string || mem k (filter (fun x => negb (x =? a)%string) (firstSeen l))).
  change (mem k (a :: l)) with ((k =? a)%string || mem k l).
  rewrite mem_filter, IH. now destruct (k =? a)%string.
Qed.

Lemma firstSeen_snoc k l :
  firstSeen (l ++ [k]) = if mem k l then firstSeen l else firstSeen l ++ [k].
Proof.
  induction l as [|a l IH]; [reflexivity|].
  change (mem k (a :: l)) with ((k =? a)%string || mem k l).
  simpl. rewrite IH.
  destruct (String.eqb_spec k a) as [->|Hne]; simpl.
  - destruct (mem a l); [reflexivity|].
    rewrite filter_app. simpl. now rewrite String.eqb_refl, app_nil_r.
  - destruct (mem k l); [reflexivity|].
    rewrite filter_app. simpl.
    apply String.eqb_neq in Hne. now rewrite Hne.
Qed.

Lemma find_hasKey_mem k gs :
  mem k (map key gs) = match JS.find (hasKey k) gs with Some _ => true | None => false end.
Proof.
  unfold mem. induction gs as [|g gs IH]; simpl; [reflexivity|].
  unfold hasKey at 1. rewrite (String.eqb_sym k (key g)).
  now destruct (key g =? k)%string.
Qed.

Lemma addEntry_keys gs e :
  map key (addEntry gs e)
  = match tagOf e with
    | None => map key gs
    | Some k => if mem k (map key gs) then map key gs else map key gs ++ [k]
    end.
Proof.
  unfold addEntry. fold (tagOf e). destruct (tagOf e) as [k|]; [|reflexivity].
  rewrite pushNote_keys, find_hasKey_mem.
  destruct (JS.find (hasKey k) gs); [reflexivity | now rewrite map_app].
Qed.

Lemma tagsOf_snoc entries e :
  tagsOf (entries ++ [e])
  = tagsOf entries ++ match tagOf e with Some k => [k] | None => [] end.
Proof. unfold tagsOf. rewrite flat_map_app. simpl. now rewrite app_nil_r. Qed.

Lemma buildGroups_keys entries :
  map key (buildGroups entries) = firstSeen (tagsOf entries).
Proof.
  induction entries as [|e entries IH] using rev_ind; [reflexivity|].
  rewrite buildGroups_snoc, addEntry_keys, tagsOf_snoc, IH.
  destruct (tagOf e) as [k|]; [|now rewrite app_nil_r].
  now rewrite firstSeen_snoc, mem_firstSeen.
Qed.

Lemma pushNote_nonempty k n gs :
  Forall (fun g => notes g <> []) gs ->
  Forall (fun g => notes g <> []) (pushNote k n gs).
Proof.
  induction 1 as [|g gs Hg Hgs IH]; simpl; [constructor|].
  destruct (hasKey k g); constructor; try assumption.
  simpl. now destruct (notes g).
Qed.

Lemma addEntry_nonempty gs e :
  Forall (fun g => notes g <> []) gs ->
  Forall (fun g => notes g <> []) (addEntry gs e).
Proof.
  intros H. unfold addEntry. destruct (JS.matchBracket (name e)) as [k|]; [|exact H].
  destruct (JS.find (hasKey k) gs) eqn:Hfind; [now apply pushNote_nonempty|].
  rewrite (pushNote_app_absent k (note e) gs _ (find_none _ _ Hfind)). simpl.
  unfold hasKey at 1. simpl. rewrite String.eqb_refl.
  apply Forall_app. split; [exact H|]. constructor; [discriminate | constructor].
Qed.

Lemma buildGroups_nonempty entries :
  Forall (fun g => notes g <> []) (buildGroups entries).
Proof.
  induction entries as [|e entries IH] using rev_ind; [constructor|].
  rewrite buildGroups_snoc. now apply addEntry_nonempty.
Qed.

(** X5.  Before the sort the groups stand in the order in which their tags
    were first seen in the entry list, one group per distinct tag, and no
    group is without a note. *)
Theorem groups_in_first_seen_order (entries : list NoteAndName) :
  map key (buildGroups entries) = firstSeen (tagsOf entries)
  /\ NoDup (map key (buildGroups entries))
  /\ Forall (fun g => notes g <> []) (buildGroups entries).
Proof.
  split; [apply buildGroups_keys|].
  split; [apply buildGroups_inv | apply buildGroups_nonempty].
Qed.

Lemma map_key_filter_rank r gs :
  (forall g, In g gs -> order g = preferredOrder (key g)) ->
  map key (filter (fun g => order g =? r) gs)
  = filter (fun k => preferredOrder k =? r) (map key gs).
Proof.
  induction gs as [|g gs IH]; intros H; simpl; [reflexivity|].
  rewrite <- (H g (or_introl eq_refl)).
  destruct (order g =? r); simpl; rewrite IH; auto; intros g' Hg'; apply H; now right.
Qed.

(** X6.  The sort keeps the groups of one rank (other than -1) in the
    order of the array, so in the output the tags of one rank follow each
    other in the order in which they were first seen. *)
Theorem equal_ranks_keep_first_seen_order (entries : list NoteAndName) (r : Z) :
  r <> -1 ->
  map key (filter (fun g => order g =? r) (sortedGroups entries))
  = filter (fun k => preferredOrder k =? r) (firstSeen (tagsOf entries)).
Proof.
  intros Hr. unfold sortedGroups.
  rewrite (sort_stable_on_ranked r (buildGroups entries) Hr).
  rewrite map_key_filter_rank, buildGroups_keys; [reflexivity|].
  intros g Hg. now apply (buildGroups_inv entries).
Qed.

Lemma equal_ranks_keep_first_seen_order_witness :
  map key (filter (fun g => order g =? 29)
                  (sortedGroups [ {| note := "1"; name := "A [kick]" |};
                                  {| note := "2"; name := "B [Hat]" |};
                                  {| note := "3"; name := "C [Kick]" |};
                                  {| note := "4"; name := "D [kick]" |} ]))
  = ["[kick]"; "[Kick]"].
Proof.
  apply (equal_ranks_keep_first_seen_order
           [ {| note := "1"; name := "A [kick]" |};
             {| note := "2"; name := "B [Hat]" |};
             {| note := "3"; name := "C [Kick]" |};
             {| note := "4"; name := "D [kick]" |} ] 29).
  discriminate.
Defined.

(** X7.  The comparator of the sort is antisymmetric as soon as one of the
    two groups is ranked; on two unranked groups it answers -1 whichever
    comes first, so each is put below the other. *)
Theorem compareGroups_antisymmetry (a b : PreferredOrderGrouping) :
  (order a = -1 -> order b = -1 -> compareGroups a b = -1 /\ compareGroups b a = -1)
  /\ (order a <> -1 \/ order b <> -1 -> compareGroups b a = - compareGroups a b).
Proof.
  unfold compareGroups. split.
  - intros -> ->. split; reflexivity.
  - intros H.
    destruct (Z.eqb_spec (order a) (-1)) as [Ha|Ha];
      destruct (Z.eqb_spec (order b) (-1)) as [Hb|Hb]; try reflexivity; [lia|].
    destruct (order a >? order b) eqn:E1; destruct (order b >? order a) eqn:E2;
      destruct (order a <? order b) eqn:E3; destruct (order b <? order a) eqn:E4;
      try reflexivity; exfalso;
      rewrite ?Z.gtb_ltb, ?Z.ltb_lt, ?Z.ltb_ge in *; lia.
Qed.

(** ** Explicit mode *)

Lemma knownNote_iff entries v :
  knownNote entries v = true <-> In v (map note entries).
Proof.
  unfold knownNote. rewrite existsb_exists, in_map_iff. split.
  - intros (e & He & Hv). apply String.eqb_eq in Hv. now exists e.
  - intros (e & Hv & He). exists e. split; [assumption | now apply String.eqb_eq].
Qed.

Lemma filter_all {A} (p : A -> bool) l :
  (forall x, In x l -> p x = true) -> filter p l = l.
Proof.
  induction l as [|x l IH]; intros H; simpl; [reflexivity|].
  rewrite (H x (or_introl eq_refl)), IH; [reflexivity|].
  intros y Hy. apply H. now right.
Qed.

Lemma explicit_returns_iff drumMap :
  (exists text, convertDRMFileToText false drumMap = Returned text)
  <-> length (filter (knownNote (extractNotesAndNames drumMap)) (explicitOrder drumMap))
      = length (map note (extractNotesAndNames drumMap)).
Proof.
  unfold convertDRMFileToText. simpl.
  rewrite explicitOrderItems_filter, !length_map.
  destruct (Nat.eqb_spec
              (length (filter (knownNote (extractNotesAndNames drumMap))
                              (explicitOrder drumMap)))
              (length (extractNotesAndNames drumMap))) as [Heq|Hne]; simpl.
  - split; [intros _; exact Heq | eauto].
  - split; [intros (text & H); discriminate | intros H; contradiction].
Qed.

(** X8.  When the explicit order list is a rearrangement of the notes of
    the entries, the explicit conversion returns, and its order lines are
    the explicit order list as it stands, line by line. *)
Theorem explicit_order_complete (drumMap : Dom.Element) :
  Permutation (explicitOrder drumMap) (map note (extractNotesAndNames drumMap)) ->
  convertDRMFileToText false drumMap
  = Returned (payload (headerName drumMap) (extractNotesAndNames drumMap)
                      (map NO (explicitOrder drumMap))).
Proof.
  intros Hperm. unfold convertDRMFileToText. simpl.
  rewrite explicitOrderItems_filter, filter_all.
  - rewrite length_map, (Permutation_length Hperm), length_map, Nat.eqb_refl.
    reflexivity.
  - intros v Hv. apply knownNote_iff. now apply (Permutation_in _ Hperm).
Qed.

Lemma explicit_order_complete_witness :
  convertDRMFileToText false twoOneDoc
  = Returned (payload (headerName twoOneDoc) (extractNotesAndNames twoOneDoc)
                      (map NO ["2"; "1"])).
Proof.
  apply (explicit_order_complete twoOneDoc). apply perm_swap.
Defined.

(** X9.  When neither the explicit order list nor the notes of the entries
    repeat a value, the explicit conversion returns exactly when every
    entry's note is in the explicit order list. *)
Theorem explicit_returns_iff_covered (drumMap : Dom.Element) :
  NoDup (explicitOrder drumMap) ->
  NoDup (map note (extractNotesAndNames drumMap)) ->
  (exists text, convertDRMFileToText false drumMap = Returned text)
  <-> (forall e, In e (extractNotesAndNames drumMap) -> In (note e) (explicitOrder drumMap)).
Proof.
  intros Horder Hnotes. rewrite explicit_returns_iff.
  set (entries := extractNotesAndNames drumMap) in *.
  set (kept := filter (knownNote entries) (explicitOrder drumMap)).
  assert (Hkept : NoDup kept) by now apply NoDup_filter.
  assert (Hincl : incl kept (map note entries)).
  { intros v Hv. apply filter_In in Hv as [_ Hv]. now apply knownNote_iff. }
  split.
  - intros Hlen e He.
    assert (Hback : incl (map note entries) kept).
    { apply NoDup_length_incl; [assumption | lia | assumption]. }
    specialize (Hback (note e) (in_map note entries e He)).
    now apply filter_In in Hback.
  - intros Hcov.
    assert (Hback : incl (map note entries) kept).
    { intros v Hv. apply filter_In. split; [|now apply knownNote_iff].
      apply in_map_iff in Hv as (e & <- & He). now apply Hcov. }
    pose proof (NoDup_incl_length Hkept Hincl).
    pose proof (NoDup_incl_length Hnotes Hback). lia.
Qed.

Lemma explicit_returns_iff_covered_witness :
  (exists text, convertDRMFileToText false shortOrderDoc = Returned text)
  <-> (forall e, In e (extractNotesAndNames shortOrderDoc) ->
                 In (note e) (explicitOrder shortOrderDoc)).
Proof.
  apply (explicit_returns_iff_covered shortOrderDoc).
  - repeat constructor. simpl. tauto.
  - repeat constructor; simpl; intuition discriminate.
Defined.

Lemma knownNote_notes entries v :
  knownNote entries v = existsb (fun n => (n =? v)%string) (map note entries).
Proof.
  unfold knownNote. induction entries as [|e entries IH]; simpl; [reflexivity|].
  now rewrite IH.
Qed.

(** X10.  In explicit mode the order lines depend on the notes of the
    entries alone: names and their tags have no part in them. *)
Theorem explicit_order_ignores_names (drumMap : Dom.Element)
        (entries entries' : list NoteAndName) :
  map note entries = map note entries' ->
  explicitOrderItems drumMap entries = explicitOrderItems drumMap entries'.
Proof.
  intros H. rewrite !explicitOrderItems_filter. f_equal.
  apply filter_ext. intros v. now rewrite !knownNote_notes, H.
Qed.

Lemma explicit_order_ignores_names_witness :
  explicitOrderItems twoOneDoc [ {| note := "1"; name := "Kick [Kick]" |};
                                 {| note := "2"; name := "Hat [Hat]" |} ]
  = explicitOrderItems twoOneDoc [ {| note := "1"; name := "Cowbell" |};
                                   {| note := "2"; name := "Tom [Floortom]" |} ].
Proof.
  apply (explicit_order_ignores_names twoOneDoc). reflexivity.
Defined.

(** ** Inferred mode without tags *)

(** X11.  The grouped output is empty exactly when no entry carries a
    tag; the empty entry list is the first such case. *)
Theorem grouped_output_empty_iff (entries : list NoteAndName) :
  groupByPreferred entries = [] <-> Forall (fun e => tagged e = false) entries.
Proof.
  assert (H : Permutation (groupByPreferred entries)
                          (map (fun e => NO (note e)) (filter tagged entries))).
  { rewrite groupByPreferred_blocks.
    rewrite (Permutation_flat_map groupLines (sortedGroups_perm entries)).
    apply buildGroups_lines. }
  split.
  - intros Hnil. rewrite Hnil in H. apply Permutation_nil in H.
    apply map_eq_nil in H. rewrite Forall_forall. intros e He.
    destruct (tagged e) eqn:Ht; [|reflexivity].
    assert (Hin : In e (filter tagged entries)) by (apply filter_In; auto).
    rewrite H in Hin. contradiction.
  - intros Hall. apply filter_none in Hall. rewrite Hall in H.
    apply Permutation_sym, Permutation_nil in H. exact H.
Qed.

(** ** Extraction *)

Lemma extract_fold items acc :
  fold_left addNoteAndName items acc
  = acc ++ map (fun item => {| note := itemNote item; name := itemName item |})
               (filter keptItem items).
Proof.
  revert acc. induction items as [|item items IH]; intros acc; simpl.
  - now rewrite app_nil_r.
  - rewrite IH. unfold addNoteAndName, keptItem. fold (itemName item) (itemNote item).
    destruct ((String.length (itemName item) =? 0)%nat
              || (String.length (itemNote item) =? 0)%nat); simpl;
      [reflexivity | now rewrite <- app_assoc].
Qed.

Lemma length_zero_iff s : (String.length s =? 0)%nat = false <-> s <> EmptyString.
Proof. destruct s; simpl; split; intros H; congruence. Qed.

(** X12.  The extracted entries are the items of the [Map] list whose name
    and note are both present and not empty, in document order; no
    extracted entry has an empty note or an empty name. *)
Theorem extracted_entries_are_complete_items (drumMap : Dom.Element) :
  extractNotesAndNames drumMap
  = map (fun item => {| note := itemNote item; name := itemName item |})
        (filter keptItem (Dom.queryListItems [("name", "Map"); ("type", "list")] drumMap))
  /\ Forall (fun e => note e <> EmptyString /\ name e <> EmptyString)
            (extractNotesAndNames drumMap).
Proof.
  assert (H : extractNotesAndNames drumMap
              = map (fun item => {| note := itemNote item; name := itemName item |})
                    (filter keptItem
                            (Dom.queryListItems [("name", "Map"); ("type", "list")] drumMap))).
  { unfold extractNotesAndNames. now rewrite extract_fold. }
  split; [exact H|].
  rewrite H, Forall_forall. intros e He.
  apply in_map_iff in He as (item & <- & Hitem).
  apply filter_In in Hitem as [_ Hkept]. unfold keptItem in Hkept.
  apply negb_true_iff, orb_false_iff in Hkept as [Hn Hm]. simpl.
  split; now apply length_zero_iff.
Qed.

(** ** The flag *)

(** X13.  Every non-empty text given as the flag, whatever it says, turns
    inferred grouping on: the conversion then takes its order lines from
    the grouping and checks no length. *)
Theorem any_flag_text_selects_grouping
        (node script dir s : string) (rest : list string) (drumMap : Dom.Element) :
  s <> EmptyString ->
  startup (node :: script :: dir :: s :: rest) = Configured dir (FlagText s)
  /\ convertDRMFileToText (truthy (usePreferredGrouping (node :: script :: dir :: s :: rest)))
                          drumMap
     = Returned (payload (headerName drumMap) (extractNotesAndNames drumMap)
                         (groupByPreferred (extractNotesAndNames drumMap))).
Proof.
  intros Hs. split; [reflexivity|].
  unfold usePreferredGrouping. simpl.
  apply length_zero_iff in Hs. now rewrite Hs.
Qed.

Lemma any_flag_text_selects_grouping_witness :
  startup ["node"; "convert-drm-to-text.ts"; "maps"; "false"]
  = Configured "maps" (FlagText "false")
  /\ convertDRMFileToText
       (truthy (usePreferredGrouping ["node"; "convert-drm-to-text.ts"; "maps"; "false"]))
       shortOrderDoc
     = Returned (payload (headerName shortOrderDoc) (extractNotesAndNames shortOrderDoc)
                         (groupByPreferred (extractNotesAndNames shortOrderDoc))).
Proof.
  apply (any_flag_text_selects_grouping
           "node" "convert-drm-to-text.ts" "maps" "false" [] shortOrderDoc).
  discriminate.
Defined.
